(** * Scene-graph core of the 2D rendering engine: Container.js and texture.vert

    A shallow embedding of [src/core/display/Container.js] and of the batched
    sprite vertex shader [src/core/sprites/webgl/texture.vert].

    - [Scene]: the store of display objects with their [parent] back-references
      and [children] arrays, and the child-list operations ([addChild],
      [addChildAt], [swapChildren], [setChildIndex], [removeChild],
      [removeChildAt], [removeChildren], ...). Objects are shared and mutated
      in place in the source, so the store is a finite map from object
      references to records; hook calls and notifications are logged in
      program order.
    - [Graph]: the per-frame traversals ([updateTransform], [renderWebGL],
      [getBounds], [getComputedBounds]) over the display tree.
    - [Shader]: the vertex stage of the multi-texture batch. *)

From Stdlib Require Import ZArith QArith Lia.
From stdpp Require Import base option list strings gmap.

Local Open Scope Z_scope.

(* ===================================================================== *)
(** * Child-list management *)
(* ===================================================================== *)

Module Scene.

(** An object reference.  Every reference denotes an object: a reference
    that was never written denotes a freshly constructed, detached
    Container ([children = []], no parent). *)
Definition ref := nat.

(** The fields of a Container that the child-list operations read and
    modify. [parent] is [None] for JavaScript's [null]/[undefined]. *)
Record Container := mkContainer {
  parent : option ref;
  children : list ref
}.

#[global] Instance Container_inhabited : Inhabited Container :=
  populate (mkContainer None []).

(** What an observer sees, in program order:
    [this.onChildrenChange(arg)] and [child.emit(name, container)].
    The hook argument is a JavaScript value: [None] is [undefined]. *)
Inductive notification := Added | Removed.

Inductive event :=
| OnChildrenChange (this : ref) (arg : option Z)
| Emit (child : ref) (name : notification) (container : ref).

Record world := mkWorld {
  heap : gmap ref Container;
  log : list event
}.

Inductive error :=
| Error (thrower : string)
| RangeError (thrower : string).

(** Computations that may throw: the outcome and the world at that point. *)
Inductive outcome (A : Type) :=
| Ret (a : A)
| Throw (e : error).
Arguments Ret {A} a.
Arguments Throw {A} e.

Definition M (A : Type) : Type := world -> outcome A * world.

Definition ret {A} (a : A) : M A := fun w => (Ret a, w).
Definition throw {A} (e : error) : M A := fun w => (Throw e, w).
Definition bind {A B} (m : M A) (k : A -> M B) : M B :=
  fun w => match m w with
           | (Ret a, w') => k a w'
           | (Throw e, w') => (Throw e, w')
           end.

Notation "'let*' x ':=' m 'in' k" := (bind m (fun x => k))
  (at level 10, x name, m at level 100, k at level 200).
Notation "m ;;; k" := (bind m (fun _ => k))
  (at level 100, k at level 200, right associativity).

(** ** Field access *)

Definition obj (w : world) (r : ref) : Container := heap w !!! r.

Definition set_parent (x : ref) (p : option ref) (w : world) : world :=
  mkWorld (<[x := mkContainer p (children (obj w x))]> (heap w)) (log w).

Definition set_children (c : ref) (l : list ref) (w : world) : world :=
  mkWorld (<[c := mkContainer (parent (obj w c)) l]> (heap w)) (log w).

Definition record (e : event) (w : world) : world :=
  mkWorld (heap w) (log w ++ [e]).

Definition modify (f : world -> world) : M unit := fun w => (Ret tt, f w).

(** ** Array primitives *)

(** [Array.prototype.indexOf] with strict equality: first position, or -1. *)
Fixpoint indexOf (l : list ref) (x : ref) : Z :=
  match l with
  | [] => -1
  | y :: l' =>
      if decide (y = x) then 0
      else let i := indexOf l' x in if i =? -1 then -1 else i + 1
  end.

(** The actual start of [Array.prototype.splice(start, ...)]: a negative
    start counts from the end, and the start is clamped to [0, length]. *)
Definition spliceStart {A} (l : list A) (start : Z) : nat :=
  let len := Z.of_nat (length l) in
  Z.to_nat (if start <? 0 then Z.max (len + start) 0 else Z.min start len).

(** [arr.splice(start, deleteCount)]: the removed items and what is left. *)
Definition splice {A} (l : list A) (start deleteCount : Z) : list A * list A :=
  let s := spliceStart l start in
  let n := Z.to_nat (Z.min (Z.max deleteCount 0) (Z.of_nat (length l - s))) in
  (take n (drop s l), take s l ++ drop (s + n) l).

(** [arr.splice(start, 0, item)]. *)
Definition spliceInsert {A} (l : list A) (start : Z) (x : A) : list A :=
  let s := spliceStart l start in
  take s l ++ x :: drop s l.

(** Modelled from the spec: [utils.removeItems(arr, startIdx, removeCount)]
    ([utils] is not among the sources); the child is spliced out of the
    array, and a start outside the array leaves it alone. *)
Definition removeItems {A} (l : list A) (startIdx : Z) (removeCount : nat) : list A :=
  if (startIdx <? 0) || (Z.of_nat (length l) <=? startIdx) then l
  else take (Z.to_nat startIdx) l ++ drop (Z.to_nat startIdx + removeCount) l.

Definition len (w : world) (c : ref) : Z := Z.of_nat (length (children (obj w c))).

(** ** The operations of Container.prototype *)

(** [removeChild(child)], one argument.  Returns [undefined] ([None]) when
    [child] is not in the array. *)
Definition removeChild1 (this child : ref) : M (option ref) := fun w =>
  let index := indexOf (children (obj w this)) child in
  if index =? -1 then (Ret None, w)
  else
    let w1 := set_parent child None w in
    let w2 := set_children this (removeItems (children (obj w1 this)) index 1) w1 in
    let w3 := record (OnChildrenChange this (Some index)) w2 in
    let w4 := record (Emit child Removed this) w3 in
    (Ret (Some child), w4).

(** A [for] loop over the arguments. *)
Fixpoint forEach {A} (f : ref -> M A) (args : list ref) : M unit :=
  match args with
  | [] => ret tt
  | a :: rest => f a ;;; forEach f rest
  end.

(** [removeChild(child, ...rest)]: with more than one argument each one is
    removed in turn and the first argument is returned. *)
Definition removeChild (this child : ref) (rest : list ref) : M (option ref) :=
  match rest with
  | [] => removeChild1 this child
  | _ :: _ => forEach (removeChild1 this) (child :: rest) ;;; ret (Some child)
  end.

(** [if (child.parent) { child.parent.removeChild(child); }] *)
Definition leaveParent (child : ref) (w : world) : world :=
  match parent (obj w child) with
  | Some p => snd (removeChild p child [] w)
  | None => w
  end.

(** [addChild(child)], one argument. *)
Definition addChild1 (this child : ref) : M ref := fun w =>
  let w1 := leaveParent child w in
  let w2 := set_parent child (Some this) w1 in
  let w3 := set_children this (children (obj w2 this) ++ [child]) w2 in
  let w4 := record (OnChildrenChange this (Some (len w3 this - 1))) w3 in
  let w5 := record (Emit child Added this) w4 in
  (Ret child, w5).

Definition addChild (this child : ref) (rest : list ref) : M ref :=
  match rest with
  | [] => addChild1 this child
  | _ :: _ => forEach (addChild1 this) (child :: rest) ;;; ret child
  end.

Definition addChildAt (this child : ref) (index : Z) : M ref := fun w =>
  if (0 <=? index) && (index <=? len w this) then
    let w1 := leaveParent child w in
    let w2 := set_parent child (Some this) w1 in
    let w3 := set_children this (spliceInsert (children (obj w2 this)) index child) w2 in
    let w4 := record (OnChildrenChange this (Some index)) w3 in
    let w5 := record (Emit child Added this) w4 in
    (Ret child, w5)
  else (Throw (Error "addChildAt"), w).

Definition getChildIndex (this child : ref) : M Z := fun w =>
  let index := indexOf (children (obj w this)) child in
  if index =? -1 then (Throw (Error "getChildIndex"), w)
  else (Ret index, w).

(** [swapChildren] returns nothing; [children[i] = x] is an in-place
    array store. *)
Definition swapChildren (this child child2 : ref) : M unit :=
  if decide (child = child2) then ret tt
  else
    let* index1 := getChildIndex this child in
    let* index2 := getChildIndex this child2 in
    if (index1 <? 0) || (index2 <? 0) then throw (Error "swapChildren")
    else
      modify (fun w => set_children this (<[Z.to_nat index1 := child2]> (children (obj w this))) w) ;;;
      modify (fun w => set_children this (<[Z.to_nat index2 := child]> (children (obj w this))) w) ;;;
      modify (record (OnChildrenChange this (Some (if index1 <? index2 then index1 else index2)))).

Definition setChildIndex (this child : ref) (index : Z) : M unit := fun w =>
  if (index <? 0) || (len w this <=? index) then (Throw (Error "setChildIndex"), w)
  else
    (let* currentIndex := getChildIndex this child in
     modify (fun w => set_children this (removeItems (children (obj w this)) currentIndex 1) w) ;;;
     modify (fun w => set_children this (spliceInsert (children (obj w this)) index child) w) ;;;
     modify (record (OnChildrenChange this (Some index)))) w.

Definition getChildAt (this : ref) (index : Z) : M ref := fun w =>
  if (index <? 0) || (len w this <=? index) then (Throw (Error "getChildAt"), w)
  else (Ret (children (obj w this) !!! Z.to_nat index), w).

Definition removeChildAt (this : ref) (index : Z) : M ref :=
  let* child := getChildAt this index in
  modify (set_parent child None) ;;;
  modify (fun w => set_children this (removeItems (children (obj w this)) index 1) w) ;;;
  modify (record (OnChildrenChange this (Some index))) ;;;
  modify (record (Emit child Removed this)) ;;;
  ret child.

(** [removed[i].parent = null] for every removed item, in order. *)
Fixpoint detachAll (removed : list ref) (w : world) : world :=
  match removed with
  | [] => w
  | x :: rest => detachAll rest (set_parent x None w)
  end.

Fixpoint emitAll (removed : list ref) (name : notification) (this : ref) (w : world) : world :=
  match removed with
  | [] => w
  | x :: rest => emitAll rest name this (record (Emit x name this) w)
  end.

(** [removeChildren(beginIndex, endIndex)].  An omitted argument is [None].
    [beginIndex || 0] and [typeof endIndex === 'number' ? endIndex : length]
    pick the defaults; the hook receives the argument [beginIndex] as it was
    passed.  [end - begin] is the difference of integers; the source
    subtracts doubles, and the two decide the tests on [range] alike as
    long as [begin] and [end] are safe integers (see [safeInteger]). *)
Definition removeChildren (this : ref) (beginIndex endIndex : option Z) : M (list ref) := fun w =>
  let begin := match beginIndex with Some b => b | None => 0 end in
  let end_ := match endIndex with Some e => e | None => len w this end in
  let range := end_ - begin in
  if (0 <? range) && (range <=? end_) then
    let '(removed, kept) := splice (children (obj w this)) begin range in
    let w1 := set_children this kept w in
    let w2 := detachAll removed w1 in
    let w3 := record (OnChildrenChange this beginIndex) w2 in
    let w4 := emitAll removed Removed this w3 in
    (Ret removed, w4)
  else if (range =? 0) && (len w this =? 0) then (Ret [], w)
  else (Throw (RangeError "removeChildren"), w).

(** ** Sequences of calls *)

(** A call that adds or removes children, and the world it leaves (whether
    it returns or throws). *)
Inductive op :=
| AddChild (this child : ref) (rest : list ref)
| AddChildAt (this child : ref) (index : Z)
| RemoveChild (this child : ref) (rest : list ref)
| RemoveChildAt (this : ref) (index : Z)
| RemoveChildren (this : ref) (beginIndex endIndex : option Z).

Definition step (w : world) (o : op) : world :=
  match o with
  | AddChild this child rest => snd (addChild this child rest w)
  | AddChildAt this child index => snd (addChildAt this child index w)
  | RemoveChild this child rest => snd (removeChild this child rest w)
  | RemoveChildAt this index => snd (removeChildAt this index w)
  | RemoveChildren this b e => snd (removeChildren this b e w)
  end.


(** Every child of a Container points back to it, and is listed once. *)
Definition consistent (w : world) : Prop :=
  ∀ c : ref,
    NoDup (children (obj w c)) ∧
    ∀ x : ref, x ∈ children (obj w c) → parent (obj w x) = Some c.

(** [Number.isSafeInteger]: an integer of magnitude below 2^53.  Doubles
    hold every such integer exactly, and round the difference of two of
    them, when they round it at all, to a value of magnitude at least 2^53;
    so a comparison of the difference with zero or with a safe integer comes
    out as it does for the exact difference. *)
Definition safeInteger (z : Z) : Prop := - 2 ^ 53 < z < 2 ^ 53.

(** No Container lists [x]. *)
Definition detached (x : ref) (w : world) : Prop := ∀ d, x ∉ children (obj w d).

(** ** Sample scenes *)

(** Nothing constructed yet: every object is detached and childless. *)
Definition nothing : world := mkWorld ∅ [].

(** Container 1 with the single child 2, and a clean log. *)
Definition one_child : world :=
  mkWorld (heap (snd (addChild 1%nat 2%nat [] nothing))) [].

(** Container 1 with the children 2, 3, 4, and a clean log. *)
Definition three_children : world :=
  mkWorld (heap (snd (addChild 1%nat 2%nat [3%nat; 4%nat] nothing))) [].

End Scene.

(* ===================================================================== *)
(** * Per-frame traversals of the display tree *)
(* ===================================================================== *)

Module Graph.

(** ** Numbers, rectangles *)

(** The JavaScript numbers the bounds loop computes with: integers and the
    two infinities it starts from ([NaN] is what [Infinity - Infinity]
    gives). *)
Inductive number := NegInfinity | Num (z : Z) | Infinity | NaN.

Definition lt (a b : number) : bool :=
  match a, b with
  | NaN, _ | _, NaN => false
  | NegInfinity, NegInfinity => false
  | NegInfinity, _ => true
  | _, NegInfinity => false
  | Infinity, _ => false
  | Num _, Infinity => true
  | Num p, Num q => p <? q
  end.

Definition gt (a b : number) : bool := lt b a.

Definition plus (a b : number) : number :=
  match a, b with
  | NaN, _ | _, NaN => NaN
  | Infinity, NegInfinity | NegInfinity, Infinity => NaN
  | Infinity, _ | _, Infinity => Infinity
  | NegInfinity, _ | _, NegInfinity => NegInfinity
  | Num p, Num q => Num (p + q)
  end.

Definition negate (a : number) : number :=
  match a with
  | NegInfinity => Infinity
  | Infinity => NegInfinity
  | Num p => Num (- p)
  | NaN => NaN
  end.

Definition minus (a b : number) : number := plus a (negate b).

Record Rectangle := mkRectangle {
  x : number;
  y : number;
  width : number;
  height : number
}.

(** A reference to a rectangle: either the shared [math.Rectangle.EMPTY]
    object or some other rectangle object, given by its contents.  [===]
    against [EMPTY] compares references, so [Rect] of four zeros is not
    [EMPTY]. *)
Inductive rectRef := EMPTY | Rect (r : Rectangle).

Definition isEMPTY (b : rectRef) : bool :=
  match b with EMPTY => true | Rect _ => false end.

(** Modelled from the spec: [Rectangle.prototype.enlarge(other)] ([math] is
    not among the sources) unions [other] into the receiver in place, and
    unioning the empty rectangle into R leaves R unchanged. *)
Definition enlarge (this : Rectangle) (other : rectRef) : Rectangle :=
  match other with
  | EMPTY => this
  | Rect r =>
      let x1 := if lt (x this) (x r) then x this else x r in
      let y1 := if lt (y this) (y r) then y this else y r in
      let right := if gt (plus (x this) (width this)) (plus (x r) (width r))
                   then plus (x this) (width this) else plus (x r) (width r) in
      let bottom := if gt (plus (y this) (height this)) (plus (y r) (height r))
                    then plus (y this) (height this) else plus (y r) (height r) in
      mkRectangle x1 y1 (minus right x1) (minus bottom y1)
  end.

(** ** Display objects *)

Definition Mask := nat.
Definition Filter := nat.

Section Traversals.

Context {Transform : Type}.

(** The fields of a display object that the traversals read and write.
    [_mask] and [_filters] are [None] for [null]/[undefined]; an array,
    empty or not, is [Some] (and truthy).  [_localBounds], when present,
    answers both bounds queries itself: the pair holds its answers.
    [projectedGeometry] and [geometry] hold the bounds of what
    [updateProjectedGeometry()] and [updateGeometry()] return ([None] when
    they return nothing). *)
Record DisplayObject := mkDisplayObject {
  id : nat;
  visible : bool;
  renderable : bool;
  worldAlpha : Q;
  _mask : option Mask;
  _filters : option (list Filter);
  displayOrder : Z;
  updatePostOrder : Z;
  localTransform : Transform;
  worldTransform : Transform;
  _localBounds : option (rectRef * rectRef);
  projectedGeometry : option Rectangle;
  geometry : option Rectangle;
  _bounds : Rectangle;
  _computedBounds : Rectangle;
  _currentBounds : option rectRef;
  _currentComputedBounds : option rectRef
}.

(** A Container with its [children] array. *)
#[warnings="-register-all"]
Inductive Container := Node (self : DisplayObject) (children : list Container).

Definition self (t : Container) : DisplayObject := match t with Node d _ => d end.
Definition children (t : Container) : list Container := match t with Node _ cs => cs end.

Definition set_displayOrder (v : Z) (d : DisplayObject) : DisplayObject :=
  mkDisplayObject (id d) (visible d) (renderable d) (worldAlpha d) (_mask d) (_filters d)
    v (updatePostOrder d) (localTransform d) (worldTransform d) (_localBounds d)
    (projectedGeometry d) (geometry d) (_bounds d) (_computedBounds d)
    (_currentBounds d) (_currentComputedBounds d).

Definition set_updatePostOrder (v : Z) (d : DisplayObject) : DisplayObject :=
  mkDisplayObject (id d) (visible d) (renderable d) (worldAlpha d) (_mask d) (_filters d)
    (displayOrder d) v (localTransform d) (worldTransform d) (_localBounds d)
    (projectedGeometry d) (geometry d) (_bounds d) (_computedBounds d)
    (_currentBounds d) (_currentComputedBounds d).

Definition set_worldTransform (v : Transform) (d : DisplayObject) : DisplayObject :=
  mkDisplayObject (id d) (visible d) (renderable d) (worldAlpha d) (_mask d) (_filters d)
    (displayOrder d) (updatePostOrder d) (localTransform d) v (_localBounds d)
    (projectedGeometry d) (geometry d) (_bounds d) (_computedBounds d)
    (_currentBounds d) (_currentComputedBounds d).

Definition set_bounds (v : Rectangle) (d : DisplayObject) : DisplayObject :=
  mkDisplayObject (id d) (visible d) (renderable d) (worldAlpha d) (_mask d) (_filters d)
    (displayOrder d) (updatePostOrder d) (localTransform d) (worldTransform d) (_localBounds d)
    (projectedGeometry d) (geometry d) v (_computedBounds d)
    (_currentBounds d) (_currentComputedBounds d).

Definition set_computedBounds (v : Rectangle) (d : DisplayObject) : DisplayObject :=
  mkDisplayObject (id d) (visible d) (renderable d) (worldAlpha d) (_mask d) (_filters d)
    (displayOrder d) (updatePostOrder d) (localTransform d) (worldTransform d) (_localBounds d)
    (projectedGeometry d) (geometry d) (_bounds d) v
    (_currentBounds d) (_currentComputedBounds d).

Definition set_currentBounds (v : option rectRef) (d : DisplayObject) : DisplayObject :=
  mkDisplayObject (id d) (visible d) (renderable d) (worldAlpha d) (_mask d) (_filters d)
    (displayOrder d) (updatePostOrder d) (localTransform d) (worldTransform d) (_localBounds d)
    (projectedGeometry d) (geometry d) (_bounds d) (_computedBounds d)
    v (_currentComputedBounds d).

Definition set_currentComputedBounds (v : option rectRef) (d : DisplayObject) : DisplayObject :=
  mkDisplayObject (id d) (visible d) (renderable d) (worldAlpha d) (_mask d) (_filters d)
    (displayOrder d) (updatePostOrder d) (localTransform d) (worldTransform d) (_localBounds d)
    (projectedGeometry d) (geometry d) (_bounds d) (_computedBounds d)
    (_currentBounds d) v.

(** ** updateTransform *)

(** Modelled from the spec: [utils.incUpdateOrder()] ([utils] is not among
    the sources) steps the global, incrementing update counter and returns
    its next value. *)
Definition incUpdateOrder (counter : Z) : Z := counter + 1.

(** Modelled from the spec: [utils.incDisplayOrder()] ([utils] is not among
    the sources) steps the global, incrementing display-order counter and
    returns its next value. *)
Definition incDisplayOrder (counter : Z) : Z := counter + 1.

Variable compose : Transform -> Transform -> Transform.

(** Modelled from the spec: [displayObjectUpdateTransform]
    ([DisplayObject.js] is not among the sources) recomputes the node's world
    transform from its local transform composed with its parent's current
    world transform. *)
Definition displayObjectUpdateTransform (parentWorld : Transform) (d : DisplayObject)
  : DisplayObject :=
  set_worldTransform (compose parentWorld (localTransform d)) d.

(** [for (i = 0; i < j; ++i) this.children[i].m()], for a method [m] that
    steps a counter and changes the child: the children are visited in
    index order and the counter is threaded through. *)
Definition forChildren (m : Z -> Container -> Z * Container)
  : Z -> list Container -> Z * list Container :=
  fix go counter cs :=
    match cs with
    | [] => (counter, [])
    | c :: rest =>
        let '(counter1, c1) := m counter c in
        let '(counter2, rest1) := go counter1 rest in
        (counter2, c1 :: rest1)
    end.

(** [updateTransform()], with the world transform of [this.parent] and the
    global update counter; returns the counter and the updated subtree. *)
Fixpoint updateTransform (parentWorld : Transform) (counter : Z) (this : Container)
  : Z * Container :=
  match this with
  | Node d cs =>
      if negb (visible d) then (counter, this)
      else
        let d1 := displayObjectUpdateTransform parentWorld d in
        let '(counter1, cs1) :=
          forChildren (updateTransform (worldTransform d1)) counter cs in
        let counter2 := incUpdateOrder counter1 in
        (counter2, Node (set_updatePostOrder counter2 d1) cs1)
  end.

(** ** renderWebGL *)

(** The calls a traversal makes on the renderer, in program order:
    [renderer.currentRenderer.flush()] and [.start()], the filter and mask
    managers' pushes and pops with their arguments, and the node's own
    [this._renderWebGL(renderer)] (its geometry, when a subclass has any). *)
Inductive call :=
| flush
| start
| pushFilter (target : nat) (filters : list Filter)
| popFilter
| pushMask (target : nat) (mask : Mask)
| popMask (target : nat) (mask : Mask)
| _renderWebGL (this : nat).

(** [for (i = 0; i < j; i++) this.children[i].renderWebGL(renderer)]. *)
Definition renderChildren (m : Z -> Container -> Z * Container * list call)
  : Z -> list Container -> Z * list Container * list call :=
  fix go counter cs :=
    match cs with
    | [] => (counter, [], [])
    | c :: rest =>
        let '(counter1, c1, calls1) := m counter c in
        let '(counter2, rest1, calls2) := go counter1 rest in
        (counter2, c1 :: rest1, calls1 ++ calls2)
    end.

Definition truthy {A} (v : option A) : bool :=
  match v with Some _ => true | None => false end.

(** [renderWebGL(renderer)], with the global display-order counter; returns
    the counter, the updated subtree and the calls made on the renderer. *)
Fixpoint renderWebGL (counter : Z) (this : Container) : Z * Container * list call :=
  match this with
  | Node d cs =>
      if negb (visible d) then (counter, Node (set_displayOrder 0 d) cs, [])
      else
        let counter1 := incDisplayOrder counter in
        let d1 := set_displayOrder counter1 d in
        if Qle_bool (worldAlpha d1) 0 || negb (renderable d1) then (counter1, Node d1 cs, [])
        else if truthy (_mask d1) || truthy (_filters d1) then
          let push_filter :=
            match _filters d1 with
            | Some (f :: fs) => [pushFilter (id d1) (f :: fs)]
            | _ => []
            end in
          let push_mask :=
            match _mask d1 with
            | Some m => [pushMask (id d1) m]
            | None => []
            end in
          let '(counter2, cs1, drawn) := renderChildren renderWebGL counter1 cs in
          let pop_mask :=
            match _mask d1 with
            | Some m => [popMask (id d1) m]
            | None => []
            end in
          let pop_filter :=
            match _filters d1 with
            | Some _ => [popFilter]
            | None => []
            end in
          (counter2, Node d1 cs1,
           [flush] ++ push_filter ++ push_mask ++ [start] ++ [_renderWebGL (id d1)]
           ++ drawn ++ [flush] ++ pop_mask ++ pop_filter ++ [start])
        else
          let '(counter2, cs1, drawn) := renderChildren renderWebGL counter1 cs in
          (counter2, Node d1 cs1, [_renderWebGL (id d1)] ++ drawn)
  end.

(** The calls made by a traversal step. *)
Definition calls {A : Type} (r : A * list call) : list call := snd r.

Definition isPushFilter (c : call) : bool :=
  match c with pushFilter _ _ => true | _ => false end.
Definition isPopFilter (c : call) : bool :=
  match c with popFilter => true | _ => false end.

(** ** Bounds *)

(** The locals of the child-bounds loop. *)
Record extent := mkExtent {
  minX : number;
  minY : number;
  maxX : number;
  maxY : number;
  childVisible : bool
}.

(** One round of the loop body once [childBounds] is known not to be
    [EMPTY]. *)
Definition include (childBounds : Rectangle) (e : extent) : extent :=
  let childMaxX := plus (width childBounds) (x childBounds) in
  let childMaxY := plus (height childBounds) (y childBounds) in
  mkExtent
    (if lt (minX e) (x childBounds) then minX e else x childBounds)
    (if lt (minY e) (y childBounds) then minY e else y childBounds)
    (if gt (maxX e) childMaxX then maxX e else childMaxX)
    (if gt (maxY e) childMaxY then maxY e else childMaxY)
    true.

(** The [for] loop of [_getChildBounds] and [_getChildComputedBounds], for
    the bounds getter [get] that it calls on a child. *)
Definition childBoundsLoop (get : Container -> rectRef * Container)
  : list Container -> extent -> extent * list Container :=
  fix go cs e :=
    match cs with
    | [] => (e, [])
    | child :: rest =>
        if negb (visible (self child)) then
          let '(e1, rest1) := go rest e in (e1, child :: rest1)
        else
          let '(childBounds, child1) := get child in
          match childBounds with
          | EMPTY => let '(e1, rest1) := go rest e in (e1, child1 :: rest1)
          | Rect r => let '(e1, rest1) := go rest (include r e) in (e1, child1 :: rest1)
          end
    end.

(** The locals before the loop, and what is written to [bounds] after it. *)
Definition initial : extent := mkExtent Infinity Infinity NegInfinity NegInfinity false.

Definition written (e : extent) : Rectangle :=
  mkRectangle (minX e) (minY e) (minus (maxX e) (minX e)) (minus (maxY e) (minY e)).

(** The body shared by [_getChildBounds] and [_getChildComputedBounds]:
    the returned reference, the contents written to the node's own bounds
    object ([None] when the function returns before the loop) and the
    children after their getters ran. *)
Definition childBounds (get : Container -> rectRef * Container) (cs : list Container)
  : rectRef * option Rectangle * list Container :=
  if Nat.eqb (length cs) 0 then (EMPTY, None, cs)
  else
    let '(e, cs1) := childBoundsLoop get cs initial in
    let bounds := written e in
    if negb (childVisible e) then (EMPTY, Some bounds, cs1)
    else (Rect bounds, Some bounds, cs1).

Definition store (set : Rectangle -> DisplayObject -> DisplayObject)
  (contents : option Rectangle) (d : DisplayObject) : DisplayObject :=
  match contents with Some r => set r d | None => d end.

(** [getBounds()]: the returned reference and the subtree with its caches
    filled. *)
Fixpoint getBounds (this : Container) : rectRef * Container :=
  match this with
  | Node d cs =>
      match _localBounds d with
      | Some answers => (fst answers, this)
      | None =>
          match _currentBounds d with
          | Some cached => (cached, this)
          | None =>
              let '(fromChildren, contents, cs1) := childBounds getBounds cs in
              let d1 := store set_bounds contents d in
              let current :=
                match projectedGeometry d with
                | None => fromChildren
                | Some geom => Rect (enlarge geom fromChildren)
                end in
              (current, Node (set_currentBounds (Some current) d1) cs1)
          end
      end
  end.

(** [getComputedBounds()]. *)
Fixpoint getComputedBounds (this : Container) : rectRef * Container :=
  match this with
  | Node d cs =>
      match _localBounds d with
      | Some answers => (snd answers, this)
      | None =>
          match _currentComputedBounds d with
          | Some cached => (cached, this)
          | None =>
              let '(fromChildren, contents, cs1) := childBounds getComputedBounds cs in
              let d1 := store set_computedBounds contents d in
              let current :=
                match geometry d with
                | None => fromChildren
                | Some geom => Rect (enlarge geom fromChildren)
                end in
              (current, Node (set_currentComputedBounds (Some current) d1) cs1)
          end
      end
  end.

Definition _getChildBounds (this : Container) : rectRef * Container :=
  let '(result, contents, cs1) := childBounds getBounds (children this) in
  (result, Node (store set_bounds contents (self this)) cs1).

Definition _getChildComputedBounds (this : Container) : rectRef * Container :=
  let '(result, contents, cs1) := childBounds getComputedBounds (children this) in
  (result, Node (store set_computedBounds contents (self this)) cs1).

(** A child takes part in the union when it is visible and its getter
    returns a reference other than [EMPTY]. *)
Definition contributes (get : Container -> rectRef * Container) (child : Container) : bool :=
  visible (self child) && negb (isEMPTY (fst (get child))).

(** The union of the bounds of the children in [cs], taken in order, each
    one through the getter [get]. *)
Definition unionOf (get : Container -> rectRef * Container) (cs : list Container)
  (e : extent) : extent :=
  foldl (fun acc child =>
           match fst (get child) with
           | Rect r => include r acc
           | EMPTY => acc
           end) e cs.

(** The union as the description has it: over the visible children with
    non-[EMPTY] bounds only, and [EMPTY] itself when there is none. *)
Definition unionOfContributing (get : Container -> rectRef * Container)
  (cs : list Container) : rectRef :=
  match List.filter (contributes get) cs with
  | [] => EMPTY
  | taking => Rect (written (unionOf get taking initial))
  end.

(** ** Shapes of trees *)

(** Every node of the tree is visible. *)
Fixpoint allVisible (t : Container) : bool :=
  match t with
  | Node d cs => visible d && forallb allVisible cs
  end.



End Traversals.

(** ** Sample trees *)

(** Positions along one axis stand in for transforms: composing adds. *)
Definition zero : Rectangle := mkRectangle (Num 0) (Num 0) (Num 0) (Num 0).

Definition plain (i : nat) : @DisplayObject Z :=
  mkDisplayObject i true true 1%Q None None 0 0 0 0 None None None zero zero None None.

(** A visible, renderable, opaque leaf whose [_filters] is the empty array. *)
Definition empty_filters : @Container Z :=
  Node (mkDisplayObject 1 true true 1%Q None (Some []) 0 0 0 0
          None None None zero zero None None) [].

(** A node with a mask and two filters over two plain children. *)
Definition masked_and_filtered : @Container Z :=
  Node (mkDisplayObject 1 true true 1%Q (Some 7%nat) (Some [8%nat; 9%nat]) 0 0 0 0
          None None None zero zero None None)
       [Node (plain 2) []; Node (plain 3) [Node (plain 4) []]].

(** An invisible node, and a fully transparent one, each over a plain child. *)
Definition hidden : @Container Z :=
  Node (mkDisplayObject 1 false true 1%Q None None 5 0 0 0
          None None None zero zero None None) [Node (plain 2) []].

Definition transparent : @Container Z :=
  Node (mkDisplayObject 1 true true 0%Q (Some 7%nat) None 0 0 0 0
          None None None zero zero None None) [Node (plain 2) []].

(** root -> A -> [B, C] with local positions 10, 5, 1, 2. *)
Definition family : @Container Z :=
  Node (mkDisplayObject 1 true true 1%Q None None 0 0 10 0
          None None None zero zero None None)
       [Node (mkDisplayObject 2 true true 1%Q None None 0 0 5 0
                None None None zero zero None None)
             [Node (mkDisplayObject 3 true true 1%Q None None 0 0 1 0
                      None None None zero zero None None) [];
              Node (mkDisplayObject 4 true true 1%Q None None 0 0 2 0
                      None None None zero zero None None) []]].

(** A leaf with the given visibility and geometry. *)
Definition shape (i : nat) (vis : bool) (geom : option Rectangle) : @Container Z :=
  Node (mkDisplayObject i vis true 1%Q None None 0 0 0 0
          None geom geom zero zero None None) [].

Definition box (px py w h : Z) : Rectangle := mkRectangle (Num px) (Num py) (Num w) (Num h).

(** A with a visible 10 by 10 child at the origin, an invisible 5 by 5
    child at (100, 100) and a visible child without content. *)
Definition gallery : @Container Z :=
  Node (plain 1)
       [shape 2 true (Some (box 0 0 10 10));
        shape 3 false (Some (box 100 100 5 5));
        shape 4 true None].

(** A whose only child has content but is invisible. *)
Definition unseen : @Container Z :=
  Node (plain 1) [shape 2 false (Some (box 100 100 5 5))].

(** A with a single visible child whose geometry is the degenerate
    rectangle of four zeros. *)
Definition dot_only : @Container Z :=
  Node (plain 1) [shape 2 true (Some zero)].

End Graph.

(* ===================================================================== *)
(** * The vertex stage of the multi-texture sprite batch (texture.vert) *)
(* ===================================================================== *)

Module Shader.
Section Vertex.

(** GLSL floats with the two operations the shader uses.  The shader is
    embedded over any carrier, so what is proved of it holds for whatever
    arithmetic the GPU implements. *)
Context {float : Type}.
Variable one : float.
Variable add : float -> float -> float.
Variable mul : float -> float -> float.

Record vec2 := mkVec2 { v2x : float; v2y : float }.
Record vec3 := mkVec3 { v3x : float; v3y : float; v3z : float }.
Record vec4 := mkVec4 { r : float; g : float; b : float; a : float }.
(** A [mat4], by rows. *)
Record mat4 := mkMat4 { row0 : vec4; row1 : vec4; row2 : vec4; row3 : vec4 }.

Definition rgb (c : vec4) : vec3 := mkVec3 (r c) (g c) (b c).

(** [vec3 * float]. *)
Definition scale (v : vec3) (s : float) : vec3 :=
  mkVec3 (mul (v3x v) s) (mul (v3y v) s) (mul (v3z v) s).

(** [vec4(vec3, float)]. *)
Definition vec4_of (v : vec3) (w : float) : vec4 := mkVec4 (v3x v) (v3y v) (v3z v) w.

Definition dot (p q : vec4) : float :=
  add (add (add (mul (r p) (r q)) (mul (g p) (g q))) (mul (b p) (b q))) (mul (a p) (a q)).

(** [mat4 * vec4]. *)
Definition transform (m : mat4) (v : vec4) : vec4 :=
  mkVec4 (dot (row0 m) v) (dot (row1 m) v) (dot (row2 m) v) (dot (row3 m) v).

Record attributes := mkAttributes {
  aVertexPosition : vec3;
  aTextureCoord : vec2;
  aColor : vec4;
  aTextureId : float
}.

Record varyings := mkVaryings {
  gl_Position : vec4;
  vTextureCoord : vec2;
  vColor : vec4;
  vTextureId : float
}.

(** [void main(void)], as a function of the uniform and the attributes. *)
Definition main (projectionMatrix : mat4) (v : attributes) : varyings :=
  mkVaryings
    (transform projectionMatrix (vec4_of (aVertexPosition v) one))
    (aTextureCoord v)
    (vec4_of (scale (rgb (aColor v)) (a (aColor v))) (a (aColor v)))
    (aTextureId v).

End Vertex.
End Shader.

(* ===================================================================== *)
(** * The effect stack and the shapes of rendered trees *)
(* ===================================================================== *)

Module Effects.
Import Graph.

Section Effects.

Context {Transform : Type}.

(** What the mask manager and the filter manager hold between a push and
    its pop, taken as one stack of tagged entries. *)
Inductive entry :=
| FilterEntry (target : nat) (filters : list Filter)
| MaskEntry (target : nat) (mask : Mask).

(** Replays the calls of a traversal against the stack: a push puts its
    entry on top, [popMask(target, mask)] needs that very mask entry on top,
    [popFilter()] needs a filter entry on top; anything else on top, or an
    empty stack, is a failure ([None]).  The other calls leave the stack
    alone. *)
Fixpoint replay (stack : list entry) (cs : list call) : option (list entry) :=
  match cs with
  | [] => Some stack
  | pushFilter target filters :: rest => replay (FilterEntry target filters :: stack) rest
  | pushMask target mask :: rest => replay (MaskEntry target mask :: stack) rest
  | popMask target mask :: rest =>
      match stack with
      | MaskEntry target' mask' :: below =>
          if Nat.eqb target target' && Nat.eqb mask mask' then replay below rest else None
      | _ => None
      end
  | popFilter :: rest =>
      match stack with
      | FilterEntry _ _ :: below => replay below rest
      | _ => None
      end
  | _ :: rest => replay stack rest
  end.

(** The same for the masks alone, whatever the filter manager is told. *)
Fixpoint replayMasks (stack : list (nat * Mask)) (cs : list call)
  : option (list (nat * Mask)) :=
  match cs with
  | [] => Some stack
  | pushMask target mask :: rest => replayMasks ((target, mask) :: stack) rest
  | popMask target mask :: rest =>
      match stack with
      | (target', mask') :: below =>
          if Nat.eqb target target' && Nat.eqb mask mask' then replayMasks below rest
          else None
      | [] => None
      end
  | _ :: rest => replayMasks stack rest
  end.

(** No node of the tree has the empty array for [_filters]. *)
Fixpoint noEmptyFilters (t : @Container Transform) : bool :=
  match t with
  | Node d cs =>
      match _filters d with Some [] => false | _ => true end
      && forallb noEmptyFilters cs
  end.

(** No node of the tree has a mask or a filter array. *)
Fixpoint unadorned (t : @Container Transform) : bool :=
  match t with
  | Node d cs => negb (truthy (_mask d)) && negb (truthy (_filters d)) && forallb unadorned cs
  end.

(** A node passes the gates of [renderWebGL]. *)
Definition passes (d : @DisplayObject Transform) : bool :=
  visible d && negb (Qle_bool (worldAlpha d) 0) && renderable d.

(** Every node of the tree passes the gates. *)
Fixpoint drawable (t : @Container Transform) : bool :=
  match t with
  | Node d cs => passes d && forallb drawable cs
  end.

(** The nodes whose own geometry [renderWebGL] reaches, in the order of a
    depth-first walk that stops at every node that does not pass the
    gates. *)
Fixpoint reached (t : @Container Transform) : list nat :=
  match t with
  | Node d cs => if passes d then id d :: flat_map reached cs else []
  end.

Definition isRenderOwn (c : call) : bool :=
  match c with _renderWebGL _ => true | _ => false end.

(** Every child, at every depth, carries a [displayOrder] above its
    parent's. *)
Fixpoint preOrdered (t : @Container Transform) : bool :=
  match t with
  | Node d cs =>
      forallb (fun c => (displayOrder d <? displayOrder (self c)) && preOrdered c) cs
  end.

(** The number of nodes that [updateTransform] visits: the visible nodes
    that are not below an invisible one. *)
Fixpoint visited (t : @Container Transform) : Z :=
  match t with
  | Node d cs =>
      if visible d then 1 + fold_right (fun c n => visited c + n) 0 cs else 0
  end.

Variable compose : Transform -> Transform -> Transform.

(** [P] holds of every tree of the list. *)
Definition allOf (P : @Container Transform -> Prop) : list (@Container Transform) -> Prop :=
  fix each l :=
    match l with
    | [] => True
    | c :: rest => P c /\ each rest
    end.

(** Every world transform in the tree is the parent's world transform
    composed with the node's local transform. *)
Fixpoint coherent (parentWorld : Transform) (t : @Container Transform) : Prop :=
  match t with
  | Node d cs =>
      worldTransform d = compose parentWorld (localTransform d) /\
      allOf (coherent (worldTransform d)) cs
  end.

(** The calls of [renderWebGL] on a node that passes the gates, before and
    after the calls of its children. *)
Definition prologue (d : @DisplayObject Transform) : list call :=
  if truthy (_mask d) || truthy (_filters d) then
    [flush]
    ++ match _filters d with Some (f :: fs) => [pushFilter (id d) (f :: fs)] | _ => [] end
    ++ match _mask d with Some m => [pushMask (id d) m] | None => [] end
    ++ [start; _renderWebGL (id d)]
  else [_renderWebGL (id d)].

Definition epilogue (d : @DisplayObject Transform) : list call :=
  if truthy (_mask d) || truthy (_filters d) then
    [flush]
    ++ match _mask d with Some m => [popMask (id d) m] | None => [] end
    ++ match _filters d with Some _ => [popFilter] | None => [] end
    ++ [start]
  else [].

(** What a node that passes the gates leaves on the stack while its
    children are rendered, and the same for the masks alone. *)
Definition pushed (d : @DisplayObject Transform) (s : list entry) : list entry :=
  match _mask d with Some m => [MaskEntry (id d) m] | None => [] end
  ++ match _filters d with Some (f :: fs) => [FilterEntry (id d) (f :: fs)] | _ => [] end
  ++ s.

Definition pushedMasks (d : @DisplayObject Transform) (s : list (nat * Mask))
  : list (nat * Mask) :=
  match _mask d with Some m => [(id d, m)] | None => [] end ++ s.

(** ** Enclosure *)

(** The four coordinates of a rectangle, when all are integers. *)
Definition coords (r : Rectangle) : option (Z * Z * Z * Z) :=
  match x r, y r, width r, height r with
  | Num px, Num py, Num w, Num h => Some (px, py, w, h)
  | _, _, _, _ => None
  end.

(** [outer] reaches at least as far as [inner] on all four sides. *)
Definition encloses (outer inner : Rectangle) : Prop :=
  match coords outer, coords inner with
  | Some (X, Y, W, H), Some (px, py, w, h) =>
      X <= px /\ Y <= py /\ px + w <= X + W /\ py + h <= Y + H
  | _, _ => False
  end.

(** A rectangle whose arithmetic is exact in doubles: integer coordinates
    with the left, top, right and bottom edges of magnitude at most 2^52, so
    that [width + x], [height + y] and every difference of two edges are
    integers of magnitude at most 2^53, which doubles hold exactly. *)
Definition exact (r : Rectangle) : Prop :=
  match coords r with
  | Some (px, py, w, h) =>
      - 2 ^ 52 <= px <= 2 ^ 52 /\ - 2 ^ 52 <= py <= 2 ^ 52 /\
      - 2 ^ 52 <= px + w <= 2 ^ 52 /\ - 2 ^ 52 <= py + h <= 2 ^ 52
  | None => False
  end.

(** The loop's locals hold integers and reach at least as far as [r] on
    all four sides. *)
Definition within (e : extent) (r : Rectangle) : Prop :=
  exists a b A B px py w h,
    minX e = Num a /\ minY e = Num b /\ maxX e = Num A /\ maxY e = Num B /\
    coords r = Some (px, py, w, h) /\
    a <= px /\ b <= py /\ px + w <= A /\ py + h <= B.

(** The locals as the loop starts, or once a child with integer
    coordinates went in. *)
Definition ready (e : extent) : Prop :=
  (minX e = Infinity /\ minY e = Infinity /\ maxX e = NegInfinity /\ maxY e = NegInfinity)
  \/ (exists a b A B, minX e = Num a /\ minY e = Num b /\ maxX e = Num A /\ maxY e = Num B).

End Effects.

(** ** renderCanvas *)

Section Canvas.

Context {Transform : Type}.

(** The calls of the canvas traversal: [renderer.maskManager.pushMask(mask,
    renderer)], [renderer.maskManager.popMask(renderer)] and the node's own
    [this._renderCanvas(renderer)]. *)
Inductive canvasCall :=
| canvasPushMask (mask : Mask)
| canvasPopMask
| _renderCanvas (this : nat).

(** The node's own [alpha] (not the accumulated [worldAlpha]), a field the
    canvas gate reads and no traversal writes. *)
Variable alpha : @DisplayObject Transform -> Q.

(** [for (i = 0; i < j; ++i) this.children[i].renderCanvas(renderer)]. *)
Definition canvasChildren (m : @Container Transform -> list canvasCall)
  : list (@Container Transform) -> list canvasCall :=
  fix go cs :=
    match cs with
    | [] => []
    | c :: rest => m c ++ go rest
    end.

(** [renderCanvas(renderer)]: the calls made; no field is written. *)
Fixpoint renderCanvas (this : @Container Transform) : list canvasCall :=
  match this with
  | Node d cs =>
      if negb (visible d) || Qle_bool (alpha d) 0 || negb (renderable d) then []
      else
        (match _mask d with Some m => [canvasPushMask m] | None => [] end)
        ++ [_renderCanvas (id d)]
        ++ canvasChildren renderCanvas cs
        ++ (match _mask d with Some _ => [canvasPopMask] | None => [] end)
  end.

(** The canvas mask manager's stack, replayed: [popMask] needs a mask to
    pop. *)
Fixpoint replayCanvas (stack : list Mask) (cs : list canvasCall) : option (list Mask) :=
  match cs with
  | [] => Some stack
  | canvasPushMask m :: rest => replayCanvas (m :: stack) rest
  | canvasPopMask :: rest =>
      match stack with
      | _ :: below => replayCanvas below rest
      | [] => None
      end
  | _renderCanvas _ :: rest => replayCanvas stack rest
  end.

Definition isCanvasOwn (c : canvasCall) : bool :=
  match c with _renderCanvas _ => true | _ => false end.

(** The nodes whose own content the canvas traversal reaches. *)
Fixpoint canvasReached (t : @Container Transform) : list nat :=
  match t with
  | Node d cs =>
      if negb (visible d) || Qle_bool (alpha d) 0 || negb (renderable d) then []
      else id d :: flat_map canvasReached cs
  end.

End Canvas.

(** ** Sample trees *)

(** A masked node over a masked child and a filtered one, the second with
    a child of its own. *)
Definition nested : @Container Z :=
  Node (mkDisplayObject 1 true true 1%Q (Some 7%nat) None 0 0 0 0
          None None None zero zero None None)
       [Node (mkDisplayObject 2 true true 1%Q (Some 8%nat) (Some [5%nat]) 0 0 0 0
                None None None zero zero None None) [];
        Node (mkDisplayObject 3 true true 1%Q None (Some [6%nat]) 0 0 0 0
                None None None zero zero None None) [Node (plain 4) []]].

End Effects.

(* ===================================================================== *)
(** * Properties of the child-list operations *)
(* ===================================================================== *)

Module SceneTheory.
Import Scene.

(** ** Reading a field after a store *)

Lemma parent_set_parent x p w y :
  parent (obj (set_parent x p w) y) = if decide (y = x) then p else parent (obj w y).
Proof.
  unfold obj, set_parent; simpl. case_decide as E.
  - subst y. by rewrite lookup_total_insert_eq.
  - by rewrite lookup_total_insert_ne.
Qed.

Lemma children_set_parent x p w y :
  children (obj (set_parent x p w) y) = children (obj w y).
Proof.
  unfold obj, set_parent; simpl. destruct (decide (y = x)) as [->|E].
  - by rewrite lookup_total_insert_eq.
  - by rewrite lookup_total_insert_ne.
Qed.

Lemma parent_set_children c l w y :
  parent (obj (set_children c l w) y) = parent (obj w y).
Proof.
  unfold obj, set_children; simpl. destruct (decide (y = c)) as [->|E].
  - by rewrite lookup_total_insert_eq.
  - by rewrite lookup_total_insert_ne.
Qed.

Lemma children_set_children c l w y :
  children (obj (set_children c l w) y) = if decide (y = c) then l else children (obj w y).
Proof.
  unfold obj, set_children; simpl. case_decide as E.
  - subst y. by rewrite lookup_total_insert_eq.
  - by rewrite lookup_total_insert_ne.
Qed.

Lemma obj_record e w y : obj (record e w) y = obj w y.
Proof. reflexivity. Qed.

Lemma obj_emitAll l n c w y : obj (emitAll l n c w) y = obj w y.
Proof. revert w. induction l as [|a l IH]; intros w; simpl; [done|]. by rewrite IH. Qed.

Lemma children_detachAll l w y :
  children (obj (detachAll l w) y) = children (obj w y).
Proof.
  revert w. induction l as [|a l IH]; intros w; simpl; [done|].
  by rewrite IH, children_set_parent.
Qed.

Lemma parent_detachAll l w y :
  parent (obj (detachAll l w) y) = if decide (y ∈ l) then None else parent (obj w y).
Proof.
  revert w. induction l as [|a l IH]; intros w; cbn [detachAll].
  - destruct (decide (y ∈ [])) as [E|E]; [by apply elem_of_nil in E | done].
  - rewrite IH, parent_set_parent.
    destruct (decide (y ∈ l)) as [Hin|Hin].
    + rewrite decide_True; [done | by apply elem_of_cons; right].
    + destruct (decide (y = a)) as [->|Hne].
      * rewrite decide_True; [done | by apply elem_of_cons; left].
      * rewrite decide_False; [done|]. intros [?|?]%elem_of_cons; done.
Qed.

(** ** indexOf *)

Lemma indexOf_range l x : -1 <= indexOf l x < Z.of_nat (length l).
Proof.
  induction l as [|y l IH]; simpl; [lia|].
  case_decide; [lia|]. destruct (Z.eqb_spec (indexOf l x) (-1)); lia.
Qed.

Lemma indexOf_absent l x : indexOf l x = -1 ↔ x ∉ l.
Proof.
  induction l as [|y l IH]; simpl.
  - split; [intros _ H; by apply elem_of_nil in H | done].
  - pose proof (indexOf_range l x) as R. case_decide as E.
    + subst. split; [lia | intros H; exfalso; apply H, elem_of_cons; by left].
    + destruct (Z.eqb_spec (indexOf l x) (-1)) as [Hi|Hi].
      * split; [|done]. intros _ [?|?]%elem_of_cons; [congruence|by apply IH in Hi].
      * split; [lia|]. intros Hn. exfalso. apply Hi, IH. intros ?. apply Hn, elem_of_cons. by right.
Qed.

(** The item at [indexOf] is the first occurrence. *)
Lemma indexOf_split l x :
  x ∈ l →
  ∃ l1 l2, l = l1 ++ (x :: l2) ∧ (x ∉ l1) ∧ indexOf l x = Z.of_nat (length l1).
Proof.
  induction l as [|y l IH]; intros Hin.
  - by apply elem_of_nil in Hin.
  - simpl. case_decide as E.
    + subst. exists [], l. split; [done|]. split; [|done]. intros H; by apply elem_of_nil in H.
    + apply elem_of_cons in Hin as [?|Hin]; [congruence|].
      destruct (IH Hin) as (l1 & l2 & -> & Hn & Hi).
      exists (y :: l1), l2. rewrite Hi. simpl length.
      destruct (Z.eqb_spec (Z.of_nat (length l1)) (-1)); [lia|].
      split; [done|]. split; [|lia].
      intros [?|?]%elem_of_cons; [congruence|done].
Qed.

Lemma removeItems_middle {A} (l1 l2 : list A) (x : A) :
  removeItems (l1 ++ x :: l2) (Z.of_nat (length l1)) 1 = l1 ++ l2.
Proof.
  unfold removeItems. rewrite length_app. simpl length.
  destruct (Z.ltb_spec (Z.of_nat (length l1)) 0); [lia|].
  destruct (Z.leb_spec (Z.of_nat (length l1 + S (length l2))) (Z.of_nat (length l1))); [lia|].
  simpl. rewrite Nat2Z.id.
  rewrite take_app_length.
  replace (length l1 + 1)%nat with (length (l1 ++ [x])) by (rewrite length_app; simpl; lia).
  replace (l1 ++ x :: l2) with ((l1 ++ [x]) ++ l2) by (by rewrite <- app_assoc).
  by rewrite drop_app_length.
Qed.

(** ** What a removal and an insertion do to the invariant *)

Lemma consistent_record e w : consistent w → consistent (record e w).
Proof. intros H c. apply (H c). Qed.


(** A child is listed by its parent only. *)
Lemma listed_once w c d x :
  consistent w → x ∈ children (obj w c) → x ∈ children (obj w d) → c = d.
Proof.
  intros H Hc Hd. apply (H c) in Hc. apply (H d) in Hd. congruence.
Qed.

(** Taking the segment [removed] out of the array of [c] and clearing the
    parents of its items. *)
Lemma consistent_cut w c l1 removed l2 :
  consistent w →
  children (obj w c) = l1 ++ removed ++ l2 →
  consistent (detachAll removed (set_children c (l1 ++ l2) w)) ∧
  ∀ x, x ∈ removed → detached x (detachAll removed (set_children c (l1 ++ l2) w)).
Proof.
  intros H Hl.
  destruct (H c) as [Hnd Hpar]. rewrite Hl in Hnd.
  apply NoDup_app in Hnd as (Hnd1 & Hdis1 & Hnd23).
  apply NoDup_app in Hnd23 as (Hnd2 & Hdis2 & Hnd3).
  assert (Hout : ∀ x d, x ∈ removed →
            x ∉ children (obj (detachAll removed (set_children c (l1 ++ l2) w)) d)).
  { intros x d Hx. rewrite children_detachAll, children_set_children.
    case_decide as E.
    - intros [Hin|Hin]%elem_of_app.
      + apply (Hdis1 x Hin), elem_of_app. by left.
      + by apply (Hdis2 x Hx).
    - intros Hin. apply E. symmetry. apply (listed_once w c d x H); [|done].
      rewrite Hl. apply elem_of_app; right. apply elem_of_app; by left. }
  split; [|intros x Hx d; by apply Hout].
  intros d. split.
  - rewrite children_detachAll, children_set_children. case_decide.
    + apply NoDup_app. split; [done|]. split; [|done].
      intros x Hx Hx2. apply (Hdis1 x Hx), elem_of_app. by right.
    + apply (H d).
  - intros x Hx. rewrite parent_detachAll, parent_set_children.
    destruct (decide (x ∈ removed)) as [Hr|Hr]; [by destruct (Hout x d Hr)|].
    rewrite children_detachAll, children_set_children in Hx.
    destruct (decide (d = c)) as [->|E].
    + apply Hpar. rewrite Hl. apply elem_of_app in Hx as [?|?].
      * apply elem_of_app; by left.
      * apply elem_of_app; right. apply elem_of_app; by right.
    + by apply (H d).
Qed.

(** Taking one child out: [child.parent = null; removeItems(children, index, 1)]. *)
Lemma consistent_remove w c l1 x l2 :
  consistent w →
  children (obj w c) = l1 ++ x :: l2 →
  consistent (set_children c (l1 ++ l2) (set_parent x None w)) ∧
  detached x (set_children c (l1 ++ l2) (set_parent x None w)).
Proof.
  intros H Hl.
  destruct (consistent_cut w c l1 [x] l2 H Hl) as [Hc Hd].
  assert (Hobj : ∀ y, obj (set_children c (l1 ++ l2) (set_parent x None w)) y
                     = obj (detachAll [x] (set_children c (l1 ++ l2) w)) y).
  { intros y. simpl.
    assert (Hp : parent (obj (set_children c (l1 ++ l2) (set_parent x None w)) y)
                 = parent (obj (set_parent x None (set_children c (l1 ++ l2) w)) y)).
    { by rewrite parent_set_children, !parent_set_parent, parent_set_children. }
    assert (Hch : children (obj (set_children c (l1 ++ l2) (set_parent x None w)) y)
                 = children (obj (set_parent x None (set_children c (l1 ++ l2) w)) y)).
    { by rewrite children_set_parent, !children_set_children, children_set_parent. }
    destruct (obj (set_children c (l1 ++ l2) (set_parent x None w)) y),
             (obj (set_parent x None (set_children c (l1 ++ l2) w)) y).
    simpl in *. congruence. }
  split.
  - intros d. rewrite Hobj. destruct (Hc d) as [Hnd Hp]. split; [done|].
    intros y. rewrite Hobj. apply Hp.
  - intros d. rewrite Hobj. apply Hd, elem_of_cons. by left.
Qed.

(** Putting a detached child in: [child.parent = this] and an array that
    holds the old items and the child. *)
Lemma consistent_insert w c x l' :
  consistent w → detached x w →
  NoDup l' → (∀ y, y ∈ l' ↔ y = x ∨ y ∈ children (obj w c)) →
  consistent (set_children c l' (set_parent x (Some c) w)).
Proof.
  intros H Hdet Hnd Hl' d. split.
  - rewrite children_set_children. case_decide; [done|].
    rewrite children_set_parent. apply (H d).
  - intros y. rewrite children_set_children, parent_set_children, parent_set_parent,
      children_set_parent.
    destruct (decide (d = c)) as [->|E]; intros Hy.
    + case_decide; [done|]. apply Hl' in Hy as [?|?]; [done|]. by apply (H c).
    + case_decide as Eq; [subst; by destruct (Hdet d)|]. by apply (H d).
Qed.

Lemma consistent_insert_perm w c x l' :
  consistent w → detached x w →
  l' ≡ₚ x :: children (obj w c) →
  consistent (set_children c l' (set_parent x (Some c) w)).
Proof.
  intros H Hdet Hp. apply consistent_insert; [done|done| |].
  - rewrite Hp. apply NoDup_cons. split; [apply Hdet | apply (H c)].
  - intros y. rewrite Hp. apply elem_of_cons.
Qed.



(** ** The operations, one by one *)

Lemma removeChild1_absent c x w :
  x ∉ children (obj w c) → removeChild1 c x w = (Ret None, w).
Proof.
  intros Hn. unfold removeChild1.
  apply indexOf_absent in Hn. by rewrite Hn.
Qed.

Lemma removeChild1_present c x w :
  x ∈ children (obj w c) →
  ∃ l1 l2,
    children (obj w c) = l1 ++ x :: l2 ∧ (x ∉ l1) ∧
    removeChild1 c x w =
      (Ret (Some x),
       record (Emit x Removed c)
         (record (OnChildrenChange c (Some (Z.of_nat (length l1))))
            (set_children c (l1 ++ l2) (set_parent x None w)))).
Proof.
  intros Hin. destruct (indexOf_split _ _ Hin) as (l1 & l2 & Hl & Hn & Hi).
  exists l1, l2. split; [done|]. split; [done|].
  unfold removeChild1. rewrite Hi.
  destruct (Z.eqb_spec (Z.of_nat (length l1)) (-1)); [lia|].
  by rewrite children_set_parent, Hl, removeItems_middle.
Qed.

Lemma consistent_removeChild1 c x w :
  consistent w →
  consistent (snd (removeChild1 c x w)) ∧
  (x ∈ children (obj w c) → detached x (snd (removeChild1 c x w))).
Proof.
  intros H. destruct (decide (x ∈ children (obj w c))) as [Hin|Hn].
  - destruct (removeChild1_present c x w Hin) as (l1 & l2 & Hl & _ & ->).
    destruct (consistent_remove w c l1 x l2 H Hl) as [Hc Hd].
    split; [|done]. simpl. by do 2 apply consistent_record.
  - rewrite removeChild1_absent by done. split; done.
Qed.

Lemma consistent_leaveParent x w :
  consistent w → consistent (leaveParent x w) ∧ detached x (leaveParent x w).
Proof.
  intros H. unfold leaveParent. destruct (parent (obj w x)) as [p|] eqn:Hp.
  - simpl. destruct (consistent_removeChild1 p x w H) as [Hc Hd]. split; [done|].
    destruct (decide (x ∈ children (obj w p))) as [Hin|Hn]; [by apply Hd|].
    rewrite removeChild1_absent by done. simpl.
    intros d Hd'. apply Hn. pose proof (proj2 (H d) x Hd') as Hpd.
    rewrite Hp in Hpd. by simplify_eq.
  - split; [done|]. intros d Hd. apply (H d) in Hd. congruence.
Qed.

Lemma addChild1_returns c x w : fst (addChild1 c x w) = Ret x.
Proof. reflexivity. Qed.

Lemma consistent_addChild1 c x w :
  consistent w → consistent (snd (addChild1 c x w)).
Proof.
  intros H. unfold addChild1. simpl.
  destruct (consistent_leaveParent x w H) as [Hc Hd].
  do 2 apply consistent_record.
  rewrite children_set_parent.
  apply consistent_insert_perm; [done|done|].
  by rewrite <- Permutation_cons_append.
Qed.


Lemma consistent_forEach {A} (f : ref → M A) args w :
  (∀ a w', consistent w' → consistent (snd (f a w'))) →
  consistent w → consistent (snd (forEach f args w)).
Proof.
  intros Hf. revert w. induction args as [|a args IH]; intros w H; [done|].
  simpl. unfold bind. specialize (Hf a w H).
  destruct (f a w) as [[r|e] w']; simpl in *; [by apply IH | done].
Qed.

Lemma consistent_addChild c x rest w :
  consistent w → consistent (snd (addChild c x rest w)).
Proof.
  intros H. destruct rest as [|y rest]; [by apply consistent_addChild1|].
  unfold addChild, bind.
  pose proof (consistent_forEach (addChild1 c) (x :: y :: rest) w
                (λ a w', consistent_addChild1 c a w') H) as Hf.
  by destruct (forEach (addChild1 c) (x :: y :: rest) w) as [[r|e] w'].
Qed.






Lemma consistent_nothing : consistent nothing.
Proof.
  intros c. unfold obj, nothing. simpl. rewrite lookup_total_empty. simpl.
  split; [apply NoDup_nil_2|]. intros x Hx. by apply elem_of_nil in Hx.
Qed.



Lemma sample_three : children (obj three_children 1%nat) = [2; 3; 4]%nat.
Proof. vm_compute. reflexivity. Qed.

Lemma sample_one : children (obj one_child 1%nat) = [2%nat].
Proof. vm_compute. reflexivity. Qed.

(** ** removeChildren: the range check *)

(** C1, as stated, fails: on the non-empty child list of [one_child],
    [removeChildren(0, 0)] does not return an empty result. *)
Lemma removeChildren_zero_range_nonempty_throws :
  children (obj one_child 1%nat) ≠ [] ∧
  removeChildren 1%nat (Some 0) (Some 0) one_child
    = (Throw (RangeError "removeChildren"), one_child) ∧
  ¬ (∀ w c b, children (obj w c) ≠ [] → 0 <= b <= len w c →
       removeChildren c (Some b) (Some b) w = (Ret [], w)).
Proof.
  assert (Hne : children (obj one_child 1%nat) ≠ []) by (by rewrite sample_one).
  assert (Hthrow : removeChildren 1%nat (Some 0) (Some 0) one_child
                   = (Throw (RangeError "removeChildren"), one_child))
    by (vm_compute; reflexivity).
  split; [done|]. split; [done|].
  intros Hclaim.
  specialize (Hclaim one_child 1%nat 0 Hne).
  rewrite Hthrow in Hclaim.
  assert (Hr : 0 <= 0 <= len one_child 1%nat) by (unfold len; lia).
  specialize (Hclaim Hr). discriminate.
Qed.

(** C1 (amended): with [begin] and [end] the defaulted arguments, a
    zero-length range returns an empty result and changes nothing only when
    the child list is empty; on a non-empty child list it raises the range
    error and changes nothing.  For [begin] and [end] safe integers (of
    magnitude below 2^53), the range error is raised exactly when
    [begin > end], or [begin = end] on a non-empty list, or [begin < 0] with
    [begin < end]. *)
Theorem removeChildren_range_check (w : world) (c : ref) (beginIndex endIndex : option Z) :
  let begin := default 0 beginIndex in
  let end_ := default (len w c) endIndex in
  (begin = end_ → children (obj w c) = [] →
     removeChildren c beginIndex endIndex w = (Ret [], w)) ∧
  (begin = end_ → children (obj w c) ≠ [] →
     removeChildren c beginIndex endIndex w = (Throw (RangeError "removeChildren"), w)) ∧
  (safeInteger begin → safeInteger end_ →
     (fst (removeChildren c beginIndex endIndex w) = Throw (RangeError "removeChildren") ↔
        end_ < begin ∨ (begin = end_ ∧ children (obj w c) ≠ [])
        ∨ (begin < end_ ∧ begin < 0))).
Proof.
  intros begin end_.
  assert (Hdef : removeChildren c beginIndex endIndex w =
    if (0 <? end_ - begin) && (end_ - begin <=? end_) then
      let '(removed, kept) := splice (children (obj w c)) begin (end_ - begin) in
      (Ret removed,
       emitAll removed Removed c
         (record (OnChildrenChange c beginIndex)
            (detachAll removed (set_children c kept w))))
    else if (end_ - begin =? 0) && (len w c =? 0) then (Ret [], w)
    else (Throw (RangeError "removeChildren"), w)).
  { unfold removeChildren, begin, end_. by destruct beginIndex, endIndex. }
  assert (Hlen : len w c = 0 ↔ children (obj w c) = []).
  { unfold len. destruct (children (obj w c)); simpl; split; intros; try done; lia. }
  rewrite Hdef. clear Hdef.
  split; [|split].
  - intros -> Hnil. rewrite Z.sub_diag. simpl.
    apply Hlen in Hnil. by rewrite Hnil.
  - intros -> Hne. rewrite Z.sub_diag. simpl.
    destruct (Z.eqb_spec (len w c) 0) as [E|E]; [by apply Hlen in E|done].
  - intros _ _.
    assert (Hne : children (obj w c) ≠ [] ↔ len w c ≠ 0) by (by rewrite Hlen).
    rewrite Hne.
    destruct (Z.ltb_spec 0 (end_ - begin)), (Z.leb_spec (end_ - begin) end_),
      (Z.eqb_spec (end_ - begin) 0), (Z.eqb_spec (len w c) 0); simpl;
      try destruct (splice (children (obj w c)) begin (end_ - begin)); simpl;
      (split; [intros Hthrow; try discriminate Hthrow; lia
              | intros Hcase; try reflexivity; exfalso; lia]).
Qed.

Lemma removeChildren_range_check_witness :
  removeChildren 1%nat (Some 0) (Some 0) nothing = (Ret [], nothing) ∧
  removeChildren 1%nat (Some 1) (Some 1) one_child
    = (Throw (RangeError "removeChildren"), one_child) ∧
  fst (removeChildren 1%nat (Some (-1)) (Some 1) one_child)
    = Throw (RangeError "removeChildren").
Proof.
  split; [|split].
  - apply (proj1 (removeChildren_range_check nothing 1%nat (Some 0) (Some 0)));
      reflexivity.
  - apply (proj1 (proj2 (removeChildren_range_check one_child 1%nat (Some 1) (Some 1)))).
    + reflexivity.
    + rewrite sample_one. discriminate.
  - apply (proj2 (proj2 (removeChildren_range_check one_child 1%nat (Some (-1)) (Some 1)))).
    + unfold safeInteger. simpl. lia.
    + unfold safeInteger. simpl. lia.
    + right. right. simpl. lia.
Defined.

(** ** The change hook *)

(** Calls of [onChildrenChange] on [c], with their arguments, in order. *)
Lemma addChild1_hook c x w :
  ∃ w0, log (snd (addChild1 c x w))
        = log w0 ++ [OnChildrenChange c (Some (len w0 c - 1)); Emit x Added c] ∧
        children (obj w0 c) = children (obj (leaveParent x w) c) ++ [x].
Proof.
  unfold addChild1. simpl.
  eexists (set_children c _ (set_parent x (Some c) (leaveParent x w))).
  split.
  - simpl. by rewrite <- app_assoc.
  - by rewrite children_set_children, decide_True, children_set_parent.
Qed.

(** [setChildIndex] hands the hook the new index, also when the child
    comes from a lower one: moving child 2 of [three_children] from index 0
    to index 2 reports 2. *)
Lemma setChildIndex_reports_new_index :
  let r := setChildIndex 1%nat 2%nat 2 three_children in
  fst r = Ret tt ∧
  children (obj (snd r) 1%nat) = [3; 4; 2]%nat ∧
  log (snd r) = [OnChildrenChange 1%nat (Some 2)].
Proof. vm_compute. by repeat split. Qed.

(** [swapChildren] of two different children calls the hook once, with
    the smaller of their indices. *)
Lemma swapChildren_hook c x y w :
  x ≠ y → x ∈ children (obj w c) → y ∈ children (obj w c) →
  log (snd (swapChildren c x y w))
    = log w ++ [OnChildrenChange c
                  (Some (Z.min (indexOf (children (obj w c)) x)
                               (indexOf (children (obj w c)) y)))].
Proof.
  intros Hne Hx Hy. unfold swapChildren. rewrite decide_False by done.
  unfold bind, getChildIndex, modify, throw.
  pose proof (indexOf_range (children (obj w c)) x) as Rx.
  pose proof (indexOf_range (children (obj w c)) y) as Ry.
  destruct (Z.eqb_spec (indexOf (children (obj w c)) x) (-1)) as [E|Nx];
    [by apply indexOf_absent in E|].
  destruct (Z.eqb_spec (indexOf (children (obj w c)) y) (-1)) as [E|Ny];
    [by apply indexOf_absent in E|].
  destruct (Z.ltb_spec (indexOf (children (obj w c)) x) 0); [lia|].
  destruct (Z.ltb_spec (indexOf (children (obj w c)) y) 0); [lia|].
  simpl.
  destruct (Z.ltb_spec (indexOf (children (obj w c)) x) (indexOf (children (obj w c)) y));
    [rewrite Z.min_l by lia | rewrite Z.min_r by lia]; done.
Qed.

Lemma log_emitAll l n c w :
  log (emitAll l n c w) = log w ++ map (λ x, Emit x n c) l.
Proof.
  revert w. induction l as [|a l IH]; intros w; simpl.
  - by rewrite app_nil_r.
  - rewrite IH. simpl. by rewrite <- app_assoc.
Qed.

Lemma log_detachAll l w : log (detachAll l w) = log w.
Proof. revert w. induction l as [|a l IH]; intros w; simpl; [done|]. by rewrite IH. Qed.

(** A successful [removeChildren] calls the hook once, after every removed
    child lost its parent and before any notification, and hands it the
    argument [beginIndex] as passed. *)
Lemma removeChildren_hook c b e w removed w' :
  removeChildren c b e w = (Ret removed, w') → removed ≠ [] →
  log w' = log w ++ [OnChildrenChange c b] ++ map (λ x, Emit x Removed c) removed.
Proof.
  unfold removeChildren.
  destruct (_ && _).
  - destruct (splice _ _ _) as [r kept]. intros [= <- <-] _.
    rewrite log_emitAll. simpl. rewrite log_detachAll. simpl.
    by rewrite <- app_assoc.
  - destruct (_ && _); [|done]. by intros [= <- <-].
Qed.

(** C3, at [removeChildren()] with both arguments omitted on the children
    2, 3, 4 of container 1: the three children are removed from index 0 on,
    and the hook is called once, with [undefined] rather than 0. *)
Theorem removeChildren_default_hook_undefined :
  let r := removeChildren 1%nat None None three_children in
  fst r = Ret [2; 3; 4]%nat ∧
  children (obj (snd r) 1%nat) = [] ∧
  log (snd r) = [OnChildrenChange 1%nat None;
                 Emit 2%nat Removed 1%nat; Emit 3%nat Removed 1%nat;
                 Emit 4%nat Removed 1%nat].
Proof. vm_compute. by repeat split. Qed.

(** ** removeChild of a node that is not a child *)

(** C10: [c.removeChild(x)] for [x] not in [c.children] returns
    [undefined] and leaves the whole world (every child list, every parent,
    the log of hook calls and notifications) as it was; for [x] in
    [c.children] it returns [x]. *)
Theorem removeChild_absent_is_silent (w : world) (c x : ref) :
  (x ∉ children (obj w c) → removeChild c x [] w = (Ret None, w)) ∧
  (x ∈ children (obj w c) → fst (removeChild c x [] w) = Ret (Some x)).
Proof.
  split.
  - apply removeChild1_absent.
  - intros Hin. simpl.
    by destruct (removeChild1_present c x w Hin) as (l1 & l2 & _ & _ & ->).
Qed.

Lemma removeChild_absent_is_silent_witness :
  removeChild 1%nat 7%nat [] three_children = (Ret None, three_children) ∧
  fst (removeChild 1%nat 3%nat [] three_children) = Ret (Some 3%nat).
Proof.
  split.
  - apply (proj1 (removeChild_absent_is_silent three_children 1%nat 7%nat)).
    rewrite sample_three. apply (bool_decide_unpack _). vm_compute. exact I.
  - apply (proj2 (removeChild_absent_is_silent three_children 1%nat 3%nat)).
    rewrite sample_three. apply (bool_decide_unpack _). vm_compute. exact I.
Defined.

(** ** Single parent *)



End SceneTheory.

(* ===================================================================== *)
(** * Properties of the traversals *)
(* ===================================================================== *)

Module GraphTheory.
Import Graph.

Section Facts.

Context {Transform : Type}.
Abbreviation Container := (@Container Transform).
Abbreviation DisplayObject := (@DisplayObject Transform).

(** Induction over a tree, with the property known of every child. *)
Section Induction.

Variable P : Container → Prop.
Hypothesis step : ∀ d cs, Forall P cs → P (Node d cs).

Fixpoint Container_tree_ind (t : Container) : P t :=
  match t with
  | Node d cs =>
      step d cs
        ((fix all (l : list Container) : Forall P l :=
            match l with
            | [] => @List.Forall_nil _ P
            | c :: rest => @List.Forall_cons _ P c rest (Container_tree_ind c) (all rest)
            end) cs)
  end.

End Induction.

(** ** updateTransform *)

Section Update.

Variable compose : Transform → Transform → Transform.

Lemma forChildren_app (m : Z → Container → Z * Container) k l1 l2 :
  forChildren m k (l1 ++ l2) =
    let r1 := forChildren m k l1 in
    let r2 := forChildren m (fst r1) l2 in
    (fst r2, snd r1 ++ snd r2).
Proof.
  revert k. induction l1 as [|c l1 IH]; intros k; simpl.
  - by destruct (forChildren m k l2).
  - destruct (m k c) as [k1 c1]. rewrite IH. simpl.
    destruct (forChildren m k1 l1) as [k2 r1]. simpl.
    by destruct (forChildren m k2 l2).
Qed.



Lemma updateTransform_invisible pw k d cs :
  visible d = false → updateTransform compose pw k (Node d cs) = (k, Node d cs).
Proof. intros Hv. simpl. by rewrite Hv. Qed.

Lemma updateTransform_visible pw k d cs :
  visible d = true →
  let d1 := displayObjectUpdateTransform compose pw d in
  let r := forChildren (updateTransform compose (worldTransform d1)) k cs in
  updateTransform compose pw k (Node d cs)
    = (incUpdateOrder (fst r), Node (set_updatePostOrder (incUpdateOrder (fst r)) d1) (snd r)).
Proof.
  intros Hv. simpl. rewrite Hv. simpl.
  by destruct (forChildren _ k cs).
Qed.




End Update.

(** ** renderWebGL *)

Lemma renderChildren_nil (m : Z → Container → Z * Container * list call) k :
  renderChildren m k [] = (k, [], []).
Proof. reflexivity. Qed.

Lemma renderChildren_cons (m : Z → Container → Z * Container * list call) k c rest :
  renderChildren m k (c :: rest) =
    let r1 := m k c in
    let r2 := renderChildren m (fst (fst r1)) rest in
    (fst (fst r2), snd (fst r1) :: snd (fst r2), snd r1 ++ snd r2).
Proof.
  simpl. destruct (m k c) as [[k1 c1] t1]. simpl.
  by destruct (renderChildren m k1 rest) as [[k2 r] t2].
Qed.

Lemma positive_alpha (d : DisplayObject) :
  (0 < worldAlpha d)%Q → Qle_bool (worldAlpha d) 0 = false.
Proof.
  intros Hpos. destruct (Qle_bool (worldAlpha d) 0) eqn:E; [|done].
  apply Qle_bool_iff in E. by apply Qlt_not_le in Hpos.
Qed.

(** C5: an invisible node gets [displayOrder] 0 and nothing else happens:
    no call on the renderer, the counter and the children untouched.  A
    visible node gets the next value of the display-order counter; if its
    [worldAlpha] is not positive or it is not renderable, the traversal
    returns there, with no call on the renderer and the children
    untouched. *)
Theorem renderWebGL_gates (k : Z) (d : DisplayObject) (cs : list Container) :
  (visible d = false →
     renderWebGL k (Node d cs) = (k, Node (set_displayOrder 0 d) cs, [])) ∧
  (visible d = true →
     displayOrder (self (snd (fst (renderWebGL k (Node d cs))))) = incDisplayOrder k) ∧
  (visible d = true → (worldAlpha d <= 0)%Q ∨ renderable d = false →
     renderWebGL k (Node d cs)
       = (incDisplayOrder k, Node (set_displayOrder (incDisplayOrder k) d) cs, [])).
Proof.
  split; [|split].
  - intros Hv. simpl. by rewrite Hv.
  - intros Hv. simpl. rewrite Hv. simpl.
    destruct (Qle_bool (worldAlpha d) 0 || negb (renderable d)); [done|].
    destruct (truthy (_mask d) || truthy (_filters d));
      by destruct (renderChildren renderWebGL (incDisplayOrder k) cs) as [[k2 r] t2].
  - intros Hv Hgate. simpl. rewrite Hv. simpl.
    assert (Qle_bool (worldAlpha d) 0 || negb (renderable d) = true) as ->; [|done].
    apply orb_true_iff. destruct Hgate as [Ha|Hr].
    + left. by apply Qle_bool_iff.
    + right. by rewrite Hr.
Qed.

(** C4: a visible, renderable node with positive [worldAlpha], a mask and a
    non-empty filter list makes exactly these calls: flush, pushFilter,
    pushMask, start, its own [_renderWebGL], the calls of its children,
    flush, popMask, popFilter, start; the calls of the children are those of
    the first child followed by those of the rest. *)
Theorem renderWebGL_mask_and_filters
  (k : Z) (d : DisplayObject) (cs : list Container) (m : Mask) (f : Filter) (fs : list Filter) :
  visible d = true → renderable d = true → (0 < worldAlpha d)%Q →
  _mask d = Some m → _filters d = Some (f :: fs) →
  calls (renderWebGL k (Node d cs))
    = [flush; pushFilter (id d) (f :: fs); pushMask (id d) m; start; _renderWebGL (id d)]
      ++ calls (renderChildren renderWebGL (incDisplayOrder k) cs)
      ++ [flush; popMask (id d) m; popFilter; start] ∧
  (∀ k', calls (renderChildren renderWebGL k' ([] : list Container)) = []) ∧
  (∀ k' (c : Container) rest,
     calls (renderChildren renderWebGL k' (c :: rest))
       = calls (renderWebGL k' c)
         ++ calls (renderChildren renderWebGL (fst (fst (renderWebGL k' c))) rest)).
Proof.
  intros Hv Hr Ha Hm Hf. split; [|split].
  - unfold calls. simpl. rewrite Hv, Hr, (positive_alpha d Ha), Hm, Hf. simpl.
    by destruct (renderChildren renderWebGL (incDisplayOrder k) cs) as [[k2 r] t2].
  - done.
  - intros k' c rest. unfold calls. by rewrite renderChildren_cons.
Qed.

(** Without an empty filter array the node's own pushes and pops of
    filters are as many: a leaf with no filters at all, or with some. *)
Lemma renderWebGL_leaf_paired (k : Z) (d : DisplayObject) :
  _filters d ≠ Some [] →
  length (List.filter isPushFilter (calls (renderWebGL k (Node d []))))
    = length (List.filter isPopFilter (calls (renderWebGL k (Node d [])))).
Proof.
  intros Hf. unfold calls. simpl.
  destruct (visible d); simpl; [|done].
  destruct (Qle_bool (worldAlpha d) 0 || negb (renderable d)); simpl; [done|].
  destruct (_mask d), (_filters d) as [[|f fs]|]; simpl; done.
Qed.

(** ** Bounds *)

Section Union.

Variable get : Container → rectRef * Container.

Lemma contributes_spec (c : Container) :
  contributes get c = true ↔ visible (self c) = true ∧ fst (get c) ≠ EMPTY.
Proof.
  unfold contributes. rewrite andb_true_iff.
  destruct (fst (get c)); simpl; split; intros [? ?]; split; try done; congruence.
Qed.

(** The loop's locals are the union over the contributing children. *)
Lemma childBoundsLoop_extent cs e :
  fst (childBoundsLoop get cs e) = unionOf get (List.filter (contributes get) cs) e.
Proof.
  revert e. induction cs as [|c cs IH]; intros e; [done|].
  unfold unionOf in *. simpl. unfold contributes at 1.
  destruct (visible (self c)); simpl.
  - destruct (get c) as [[|r] c1] eqn:Hg; simpl.
    + specialize (IH e). by destruct (childBoundsLoop get cs e).
    + specialize (IH (include r e)). rewrite Hg. simpl.
      by destruct (childBoundsLoop get cs (include r e)).
  - specialize (IH e). by destruct (childBoundsLoop get cs e).
Qed.

Lemma unionOf_keeps_visible l e :
  childVisible e = true → childVisible (unionOf get l e) = true.
Proof.
  revert e. induction l as [|c l IH]; intros e He; [done|].
  simpl. apply IH. by destruct (fst (get c)).
Qed.

Lemma unionOf_visible c l e :
  contributes get c = true → childVisible (unionOf get (c :: l) e) = true.
Proof.
  intros Hc. simpl. apply unionOf_keeps_visible.
  apply contributes_spec in Hc as [_ Hne].
  by destruct (fst (get c)).
Qed.

Lemma filter_head {A} (p : A → bool) (l : list A) (a : A) (rest : list A) :
  List.filter p l = a :: rest → p a = true.
Proof.
  intros H. assert (Hin : In a (List.filter p l)) by (rewrite H; by left).
  by apply filter_In in Hin as [_ ?].
Qed.

(** What the shared body returns is the union over the contributing
    children, and the [EMPTY] object when no child contributes. *)
Lemma childBounds_result cs :
  fst (fst (childBounds get cs)) = unionOfContributing get cs.
Proof.
  unfold childBounds, unionOfContributing.
  destruct cs as [|c cs]; [done|].
  change (Nat.eqb (length (c :: cs)) 0) with false. cbv iota.
  pose proof (childBoundsLoop_extent (c :: cs) initial) as He.
  destruct (childBoundsLoop get (c :: cs) initial) as [e cs1].
  cbn [fst] in He. subst e.
  destruct (List.filter (contributes get) (c :: cs)) as [|a taking] eqn:Hf.
  - done.
  - rewrite (unionOf_visible a taking initial (filter_head _ _ _ _ Hf)). done.
Qed.

End Union.

(** C8: with no [_localBounds] and nothing cached, [getBounds] and
    [getComputedBounds] return the node's own geometry enlarged by, or
    without geometry just, the union over the children that are visible and
    whose getter returns another reference than [EMPTY] (whatever its
    coordinates); every other child is left out of the union.  Without
    geometry and without such a child the result is the [EMPTY] object. *)
Theorem bounds_union_skips (d : DisplayObject) (cs : list Container) :
  (∀ get (c : Container),
      contributes get c = true ↔ visible (self c) = true ∧ fst (get c) ≠ EMPTY) ∧
  (_localBounds d = None → _currentBounds d = None →
     fst (getBounds (Node d cs))
       = match projectedGeometry d with
         | None => unionOfContributing getBounds cs
         | Some geom => Rect (enlarge geom (unionOfContributing getBounds cs))
         end) ∧
  (_localBounds d = None → _currentComputedBounds d = None →
     fst (getComputedBounds (Node d cs))
       = match geometry d with
         | None => unionOfContributing getComputedBounds cs
         | Some geom => Rect (enlarge geom (unionOfContributing getComputedBounds cs))
         end) ∧
  (_localBounds d = None → _currentBounds d = None → projectedGeometry d = None →
     List.filter (contributes getBounds) cs = [] →
     fst (getBounds (Node d cs)) = EMPTY) ∧
  (_localBounds d = None → _currentComputedBounds d = None → geometry d = None →
     List.filter (contributes getComputedBounds) cs = [] →
     fst (getComputedBounds (Node d cs)) = EMPTY).
Proof.
  assert (Hb : _localBounds d = None → _currentBounds d = None →
     fst (getBounds (Node d cs))
       = match projectedGeometry d with
         | None => unionOfContributing getBounds cs
         | Some geom => Rect (enlarge geom (unionOfContributing getBounds cs))
         end).
  { intros Hl Hc. simpl. rewrite Hl, Hc.
    pose proof (childBounds_result getBounds cs) as Hr.
    destruct (childBounds getBounds cs) as [[fromChildren contents] cs1].
    simpl in *. by rewrite Hr. }
  assert (Hcb : _localBounds d = None → _currentComputedBounds d = None →
     fst (getComputedBounds (Node d cs))
       = match geometry d with
         | None => unionOfContributing getComputedBounds cs
         | Some geom => Rect (enlarge geom (unionOfContributing getComputedBounds cs))
         end).
  { intros Hl Hc. simpl. rewrite Hl, Hc.
    pose proof (childBounds_result getComputedBounds cs) as Hr.
    destruct (childBounds getComputedBounds cs) as [[fromChildren contents] cs1].
    simpl in *. by rewrite Hr. }
  split; [apply contributes_spec|].
  split; [done|]. split; [done|]. split.
  - intros Hl Hc Hg Hnone. rewrite Hb, Hg by done.
    unfold unionOfContributing. by rewrite Hnone.
  - intros Hl Hc Hg Hnone. rewrite Hcb, Hg by done.
    unfold unionOfContributing. by rewrite Hnone.
Qed.

End Facts.


Lemma renderWebGL_gates_witness :
  renderWebGL 3 hidden
    = (3, Node (set_displayOrder 0 (self hidden)) (children hidden), []) ∧
  renderWebGL 3 transparent
    = (4, Node (set_displayOrder 4 (self transparent)) (children transparent), []).
Proof.
  split.
  - apply (proj1 (renderWebGL_gates 3 (self hidden) (children hidden))).
    reflexivity.
  - apply (proj2 (proj2 (renderWebGL_gates 3 (self transparent) (children transparent)))).
    + reflexivity.
    + left. vm_compute. discriminate.
Defined.

Lemma renderWebGL_mask_and_filters_witness :
  calls (renderWebGL 0 masked_and_filtered)
    = [flush; pushFilter 1 [8; 9]%nat; pushMask 1 7%nat; start; _renderWebGL 1]
      ++ calls (renderChildren renderWebGL 1 (children masked_and_filtered))
      ++ [flush; popMask 1 7%nat; popFilter; start].
Proof.
  apply (renderWebGL_mask_and_filters 0 (self masked_and_filtered)
           (children masked_and_filtered) 7%nat 8%nat [9%nat]);
    reflexivity.
Defined.

(** C2, at a visible, renderable, opaque leaf whose [_filters] is the empty
    array and that has no mask: the node makes no [pushFilter] call and one
    [popFilter] call. *)
Theorem renderWebGL_empty_filters_unpaired :
  calls (renderWebGL 0 empty_filters)
    = [flush; start; _renderWebGL 1; flush; popFilter; start] ∧
  length (List.filter isPushFilter (calls (renderWebGL 0 empty_filters))) = 0%nat ∧
  length (List.filter isPopFilter (calls (renderWebGL 0 empty_filters))) = 1%nat.
Proof. vm_compute. by repeat split. Qed.


Lemma bounds_union_skips_witness :
  fst (getBounds gallery) = Rect (box 0 0 10 10) ∧
  fst (getBounds dot_only) = Rect zero ∧
  fst (getBounds unseen) = EMPTY ∧
  fst (getComputedBounds unseen) = EMPTY.
Proof.
  split; [|split; [|split]].
  - etransitivity.
    + apply (proj1 (proj2 (bounds_union_skips (self gallery) (children gallery))));
        reflexivity.
    + reflexivity.
  - etransitivity.
    + apply (proj1 (proj2 (bounds_union_skips (self dot_only) (children dot_only))));
        reflexivity.
    + reflexivity.
  - apply (proj1 (proj2 (proj2 (proj2
             (bounds_union_skips (self unseen) (children unseen))))));
      reflexivity.
  - apply (proj2 (proj2 (proj2 (proj2
             (bounds_union_skips (self unseen) (children unseen))))));
      reflexivity.
Defined.

End GraphTheory.

(* ===================================================================== *)
(** * Properties of the vertex stage *)
(* ===================================================================== *)

Module ShaderTheory.
Import Shader.

(** C9: for every vertex, whatever the float arithmetic, the colour varying
    is the attribute colour with red, green and blue each multiplied once by
    alpha and with alpha itself unchanged, and the texture coordinate and
    the texture index reach the fragment stage as they came in. *)
Theorem main_premultiplies_color {float : Type} (one : float)
  (add mul : float → float → float)
  (projectionMatrix : @mat4 float) (v : @attributes float) :
  let out := main one add mul projectionMatrix v in
  vColor out = mkVec4 (mul (r (aColor v)) (a (aColor v)))
                      (mul (g (aColor v)) (a (aColor v)))
                      (mul (b (aColor v)) (a (aColor v)))
                      (a (aColor v)) ∧
  vTextureCoord out = aTextureCoord v ∧
  vTextureId out = aTextureId v.
Proof. by repeat split. Qed.

End ShaderTheory.

(* ===================================================================== *)
(** * Further properties of the child-list operations *)
(* ===================================================================== *)

Module SceneMore.
Import Scene SceneTheory.

(** ** Failing calls *)

Lemma forEach_addChild1_returns c args w :
  fst (forEach (addChild1 c) args w) = Ret tt.
Proof.
  revert w. induction args as [|a args IH]; intros w; [done|].
  simpl. unfold bind. simpl. apply IH.
Qed.

Lemma forEach_removeChild1_returns c args w :
  fst (forEach (removeChild1 c) args w) = Ret tt.
Proof.
  revert w. induction args as [|a args IH]; intros w; [done|].
  simpl. unfold bind.
  destruct (removeChild1 c a w) as [[r|e] w'] eqn:E.
  - apply IH.
  - unfold removeChild1 in E. by destruct (_ =? _) in E.
Qed.

(** X1: [addChild] and [removeChild] never throw; every other operation that
    throws leaves the world (child lists, parents, log) as it found it. *)
Theorem throwing_changes_nothing (w : world) (c x y : ref) (rest : list ref)
  (i : Z) (b e : option Z) :
  (∀ err, fst (addChild c x rest w) ≠ Throw err) ∧
  (∀ err, fst (removeChild c x rest w) ≠ Throw err) ∧
  (∀ err w', addChildAt c x i w = (Throw err, w') → w' = w) ∧
  (∀ err w', getChildIndex c x w = (Throw err, w') → w' = w) ∧
  (∀ err w', getChildAt c i w = (Throw err, w') → w' = w) ∧
  (∀ err w', swapChildren c x y w = (Throw err, w') → w' = w) ∧
  (∀ err w', setChildIndex c x i w = (Throw err, w') → w' = w) ∧
  (∀ err w', removeChildAt c i w = (Throw err, w') → w' = w) ∧
  (∀ err w', removeChildren c b e w = (Throw err, w') → w' = w).
Proof.
  repeat split.
  - intros err. destruct rest; [done|]. unfold addChild, bind.
    pose proof (forEach_addChild1_returns c (x :: r :: rest) w) as H.
    by destruct (forEach _ _ w) as [[[]|?] ?]; simpl in *.
  - intros err. destruct rest.
    + simpl. unfold removeChild1. by destruct (_ =? _).
    + unfold removeChild, bind.
      pose proof (forEach_removeChild1_returns c (x :: r :: rest) w) as H.
      by destruct (forEach _ _ w) as [[[]|?] ?]; simpl in *.
  - intros err w'. unfold addChildAt. destruct (_ && _); [done|]. by intros [= _ <-].
  - intros err w'. unfold getChildIndex. destruct (_ =? _); [|done]. by intros [= _ <-].
  - intros err w'. unfold getChildAt. destruct (_ || _); [|done]. by intros [= _ <-].
  - intros err w'. unfold swapChildren. destruct (decide _); [done|].
    unfold bind, getChildIndex, throw, modify.
    destruct (_ =? _); [by intros [= _ <-]|].
    destruct (_ =? _); [by intros [= _ <-]|].
    destruct (_ || _); [by intros [= _ <-]|done].
  - intros err w'. unfold setChildIndex. destruct (_ || _); [by intros [= _ <-]|].
    unfold bind, getChildIndex, modify.
    destruct (_ =? _); [by intros [= _ <-]|done].
  - intros err w'. unfold removeChildAt, bind, getChildAt.
    destruct (_ || _); [by intros [= _ <-]|done].
  - intros err w'. unfold removeChildren.
    destruct (_ && _); [by destruct (splice _ _ _)|].
    destruct (_ && _); [done|]. by intros [= _ <-].
Qed.

Lemma throwing_changes_nothing_witness :
  snd (removeChildren 1%nat (Some 0) (Some 0) one_child) = one_child ∧
  snd (addChildAt 1%nat 3%nat 5 one_child) = one_child.
Proof.
  split.
  - apply (proj2 (proj2 (proj2 (proj2 (proj2 (proj2 (proj2 (proj2
      (throwing_changes_nothing one_child 1%nat 2%nat 2%nat [] 0 (Some 0) (Some 0))))))))))
      with (err := RangeError "removeChildren").
    reflexivity.
  - apply (proj1 (proj2 (proj2
      (throwing_changes_nothing one_child 1%nat 3%nat 2%nat [] 5 None None))))
      with (err := Error "addChildAt").
    reflexivity.
Defined.

(** ** Looking children up *)

Lemma indexOf_present l x :
  x ∈ l →
  0 <= indexOf l x < Z.of_nat (length l) ∧ l !! Z.to_nat (indexOf l x) = Some x.
Proof.
  intros Hin. destruct (indexOf_split l x Hin) as (l1 & l2 & -> & _ & ->).
  rewrite length_app. simpl. split; [lia|].
  rewrite Nat2Z.id. by apply list_lookup_middle.
Qed.

Lemma indexOf_NoDup l x n :
  NoDup l → l !! n = Some x → indexOf l x = Z.of_nat n.
Proof.
  intros Hnd Hn.
  destruct (indexOf_present l x (list_elem_of_lookup_2 _ _ _ Hn)) as [Hr Hl].
  rewrite <- (NoDup_lookup l _ _ x Hnd Hl Hn). lia.
Qed.

Lemma getChildIndex_present c x w :
  x ∈ children (obj w c) →
  getChildIndex c x w = (Ret (indexOf (children (obj w c)) x), w).
Proof.
  intros Hin. unfold getChildIndex.
  destruct (Z.eqb_spec (indexOf (children (obj w c)) x) (-1)) as [E|E]; [|done].
  by apply indexOf_absent in E.
Qed.

Lemma getChildAt_valid c i w :
  0 <= i < len w c →
  getChildAt c i w = (Ret (children (obj w c) !!! Z.to_nat i), w).
Proof.
  intros [H1 H2]. unfold getChildAt.
  destruct (Z.ltb_spec i 0); [lia|]. by destruct (Z.leb_spec (len w c) i); [lia|].
Qed.

(** X2: Each operation throws in exactly these cases: [addChildAt] for an
    index outside [0, length]; [getChildAt] and [removeChildAt] for an index
    outside [0, length - 1]; [getChildIndex] for a node that is not a child;
    [swapChildren] for two different nodes one of which is not a child;
    [setChildIndex] for an index outside [0, length - 1] or a node that is
    not a child. *)
Theorem throws_exactly (w : world) (c x y : ref) (i : Z) :
  ((∃ err, fst (addChildAt c x i w) = Throw err) ↔ i < 0 ∨ len w c < i) ∧
  ((∃ err, fst (getChildAt c i w) = Throw err) ↔ i < 0 ∨ len w c <= i) ∧
  ((∃ err, fst (removeChildAt c i w) = Throw err) ↔ i < 0 ∨ len w c <= i) ∧
  ((∃ err, fst (getChildIndex c x w) = Throw err) ↔ x ∉ children (obj w c)) ∧
  ((∃ err, fst (swapChildren c x y w) = Throw err)
     ↔ x ≠ y ∧ (x ∉ children (obj w c) ∨ y ∉ children (obj w c))) ∧
  ((∃ err, fst (setChildIndex c x i w) = Throw err)
     ↔ i < 0 ∨ len w c <= i ∨ x ∉ children (obj w c)).
Proof.
  split_and!.
  - unfold addChildAt. destruct (Z.leb_spec 0 i), (Z.leb_spec i (len w c)); simpl;
      (split; [intros [err Hthrow]; try discriminate Hthrow; lia
              | intros Hcase; try (exfalso; lia); by eexists]).
  - unfold getChildAt. destruct (Z.ltb_spec i 0), (Z.leb_spec (len w c) i); simpl;
      (split; [intros [err Hthrow]; try discriminate Hthrow; lia
              | intros Hcase; try (exfalso; lia); by eexists]).
  - unfold removeChildAt, bind, getChildAt.
    destruct (Z.ltb_spec i 0), (Z.leb_spec (len w c) i); simpl;
      (split; [intros [err Hthrow]; try discriminate Hthrow; lia
              | intros Hcase; try (exfalso; lia); by eexists]).
  - split.
    + unfold getChildIndex. intros [err H].
      destruct (Z.eqb_spec (indexOf (children (obj w c)) x) (-1)) as [E|E]; [|done].
      by apply indexOf_absent.
    + intros Hn. unfold getChildIndex. apply indexOf_absent in Hn. rewrite Hn.
      by eexists.
  - split.
    + intros [err H]. unfold swapChildren in H.
      destruct (decide (x = y)); [done|]. split; [done|].
      destruct (decide (x ∈ children (obj w c))) as [Hx|Hx]; [|by left].
      destruct (decide (y ∈ children (obj w c))) as [Hy|Hy]; [|by right].
      exfalso. unfold bind in H.
      rewrite (getChildIndex_present c x w Hx), (getChildIndex_present c y w Hy) in H.
      destruct (indexOf_present _ _ Hx) as [Rx _], (indexOf_present _ _ Hy) as [Ry _].
      destruct (Z.ltb_spec (indexOf (children (obj w c)) x) 0); [lia|].
      destruct (Z.ltb_spec (indexOf (children (obj w c)) y) 0); [lia|].
      done.
    + intros [Hne Hor]. unfold swapChildren. rewrite decide_False by done.
      unfold bind, getChildIndex.
      destruct (decide (x ∈ children (obj w c))) as [Hx|Hx].
      * destruct Hor as [?|Hy]; [done|].
        destruct (Z.eqb_spec (indexOf (children (obj w c)) x) (-1)) as [E|E];
          [by eexists|].
        apply indexOf_absent in Hy. rewrite Hy. by eexists.
      * apply indexOf_absent in Hx. rewrite Hx. by eexists.
  - split.
    + intros [err H]. unfold setChildIndex in H.
      destruct (Z.ltb_spec i 0); [by left|].
      destruct (Z.leb_spec (len w c) i); [right; by left|]. simpl in H.
      right; right. intros Hx. unfold bind in H.
      by rewrite (getChildIndex_present c x w Hx) in H.
    + intros H. unfold setChildIndex.
      destruct (Z.ltb_spec i 0); [by eexists|].
      destruct (Z.leb_spec (len w c) i); [by eexists|]. simpl.
      destruct H as [?|[?|Hx]]; [lia|lia|].
      unfold bind, getChildIndex. apply indexOf_absent in Hx. rewrite Hx. by eexists.
Qed.

(** X3: The two lookups invert each other: the child at the index of a child
    is that child, and, in a list without repetition, the index of the child
    at a valid index is that index. *)
Theorem lookups_round_trip (w : world) (c x : ref) (i : Z) :
  (x ∈ children (obj w c) →
     ∃ k, getChildIndex c x w = (Ret k, w) ∧ getChildAt c k w = (Ret x, w)) ∧
  (NoDup (children (obj w c)) → 0 <= i < len w c →
     ∃ y, getChildAt c i w = (Ret y, w) ∧ getChildIndex c y w = (Ret i, w)).
Proof.
  split.
  - intros Hin. exists (indexOf (children (obj w c)) x).
    split; [by apply getChildIndex_present|].
    destruct (indexOf_present _ _ Hin) as [Hr Hl].
    rewrite getChildAt_valid by done.
    by rewrite (list_lookup_total_correct _ _ _ Hl).
  - intros Hnd Hi. exists (children (obj w c) !!! Z.to_nat i).
    split; [by apply getChildAt_valid|].
    destruct (lookup_lt_is_Some_2 (children (obj w c)) (Z.to_nat i)) as [y Hy];
      [unfold len in Hi; lia|].
    rewrite (list_lookup_total_correct _ _ _ Hy).
    rewrite (getChildIndex_present c y w (list_elem_of_lookup_2 _ _ _ Hy)).
    rewrite (indexOf_NoDup _ _ _ Hnd Hy). f_equal. f_equal. lia.
Qed.

Lemma lookups_round_trip_witness :
  getChildAt 1%nat 1 three_children = (Ret 3%nat, three_children) ∧
  (∃ y, getChildAt 1%nat 2 three_children = (Ret y, three_children) ∧
        getChildIndex 1%nat y three_children = (Ret 2, three_children)).
Proof.
  split.
  - destruct (proj1 (lookups_round_trip three_children 1%nat 3%nat 0)) as (k & Hk & Hat).
    + rewrite sample_three. apply (bool_decide_unpack _). vm_compute. exact I.
    + vm_compute in Hk. injection Hk as <-. exact Hat.
  - apply (proj2 (lookups_round_trip three_children 1%nat 3%nat 2)).
    + rewrite sample_three. apply (bool_decide_unpack _). vm_compute. exact I.
    + unfold len. rewrite sample_three. simpl. lia.
Defined.

(** ** Adding, then looking up *)

(** X4: After [c.addChild(x)] in a consistent world, [x] is the last child of
    [c]: its index is [length - 1], the child at that index is [x], and the
    list is one longer than it was once [x] had left its old parent. *)
Theorem addChild_puts_last (w : world) (c x : ref) (H : consistent w) :
  let w' := snd (addChild c x [] w) in
  len w' c = len (leaveParent x w) c + 1 ∧
  getChildIndex c x w' = (Ret (len w' c - 1), w') ∧
  getChildAt c (len w' c - 1) w' = (Ret x, w').
Proof.
  intros w'.
  assert (Hl : children (obj w' c) = children (obj (leaveParent x w) c) ++ [x]).
  { unfold w', addChild, addChild1. cbn [snd]. rewrite !obj_record.
    by rewrite children_set_children, decide_True, children_set_parent. }
  assert (Hnd : NoDup (children (obj w' c))).
  { apply (consistent_addChild c x [] w H). }
  assert (Hlen : len w' c = len (leaveParent x w) c + 1).
  { unfold len. rewrite Hl, length_app. simpl. lia. }
  assert (Hat : children (obj w' c) !! Z.to_nat (len w' c - 1) = Some x).
  { rewrite Hl. apply list_lookup_middle. unfold len. rewrite Hl, length_app. simpl. lia. }
  split; [done|]. split.
  - rewrite getChildIndex_present by (by eapply list_elem_of_lookup_2).
    rewrite (indexOf_NoDup _ _ _ Hnd Hat). do 2 f_equal.
    unfold len in *. lia.
  - rewrite getChildAt_valid by (unfold len in *; lia).
    by rewrite (list_lookup_total_correct _ _ _ Hat).
Qed.

Lemma addChild_puts_last_witness :
  getChildIndex 1%nat 3%nat (snd (addChild 1%nat 3%nat [] three_children))
    = (Ret 2, snd (addChild 1%nat 3%nat [] three_children)).
Proof.
  assert (H : consistent three_children).
  { intros c. unfold obj, three_children.
    change (heap (mkWorld ?h ?l)) with h.
    apply (consistent_addChild 1%nat 2%nat [3%nat; 4%nat] nothing consistent_nothing c). }
  apply (proj1 (proj2 (addChild_puts_last three_children 1%nat 3%nat H))).
Defined.

(** ** Removing *)

(** X5: Removing by the index of a child is removing that child: for a child
    [x] of [c], [c.removeChildAt(c.getChildIndex(x))] returns [x] and leaves
    the world that [c.removeChild(x)] leaves. *)
Theorem removeChildAt_of_index (w : world) (c x : ref) :
  x ∈ children (obj w c) →
  removeChildAt c (indexOf (children (obj w c)) x) w
    = (Ret x, snd (removeChild c x [] w)).
Proof.
  intros Hin. destruct (indexOf_present _ _ Hin) as [Hr Hl].
  unfold removeChildAt, bind. rewrite getChildAt_valid by done.
  rewrite (list_lookup_total_correct _ _ _ Hl).
  unfold modify, ret, removeChild, removeChild1.
  destruct (Z.eqb_spec (indexOf (children (obj w c)) x) (-1)) as [E|E]; [lia|].
  reflexivity.
Qed.

Lemma removeChildAt_of_index_witness :
  removeChildAt 1%nat 1 three_children
    = (Ret 3%nat, snd (removeChild 1%nat 3%nat [] three_children)).
Proof.
  apply (removeChildAt_of_index three_children 1%nat 3%nat).
  rewrite sample_three. apply (bool_decide_unpack _). vm_compute. exact I.
Defined.

(** X6: Detaching is idempotent: where [c.children] has no repetition, a second
    [c.removeChild(x)] finds nothing to do, returns [undefined] and changes
    nothing. *)
Theorem removeChild_twice (w : world) (c x : ref) :
  NoDup (children (obj w c)) →
  let w1 := snd (removeChild c x [] w) in
  removeChild c x [] w1 = (Ret None, w1).
Proof.
  intros Hnd w1. apply removeChild1_absent.
  destruct (decide (x ∈ children (obj w c))) as [Hin|Hn].
  - unfold w1. simpl.
    destruct (removeChild1_present c x w Hin) as (l1 & l2 & Hl & Hn1 & ->).
    cbn [snd]. rewrite !obj_record, children_set_children, decide_True by done.
    rewrite Hl in Hnd. apply NoDup_app in Hnd as (_ & Hd & Hnd2).
    apply NoDup_cons in Hnd2 as [Hn2 _].
    intros [?|?]%elem_of_app; done.
  - unfold w1. simpl. by rewrite removeChild1_absent.
Qed.

Lemma removeChild_twice_witness :
  removeChild 1%nat 3%nat [] (snd (removeChild 1%nat 3%nat [] three_children))
    = (Ret None, snd (removeChild 1%nat 3%nat [] three_children)).
Proof.
  apply (removeChild_twice three_children 1%nat 3%nat).
  rewrite sample_three. apply (bool_decide_unpack _). vm_compute. exact I.
Defined.

(** ** Removing a range *)

Lemma splice_in_range {A} (l : list A) (b n : Z) :
  0 <= b → 0 < n → b + n <= Z.of_nat (length l) →
  splice l b n
    = (take (Z.to_nat n) (drop (Z.to_nat b) l),
       take (Z.to_nat b) l ++ drop (Z.to_nat (b + n)) l).
Proof.
  intros Hb Hn Hbn. unfold splice, spliceStart.
  destruct (Z.ltb_spec b 0); [lia|].
  replace (Z.min b (Z.of_nat (length l))) with b by lia.
  replace (Z.min (Z.max n 0) (Z.of_nat (length l - Z.to_nat b))) with n by lia.
  by replace (Z.to_nat b + Z.to_nat n)%nat with (Z.to_nat (b + n)) by lia.
Qed.

(** X7: [removeChildren(begin, end)] with [0 <= begin < end <= length] in a
    consistent world returns the children at [begin .. end - 1] in order,
    leaves the children before and after them, clears the parent of each
    removed child and of no other node, and leaves every removed child in
    no child list at all. *)
Theorem removeChildren_slice (w : world) (c : ref) (b e : option Z) (H : consistent w) :
  let begin := default 0 b in
  let end_ := default (len w c) e in
  0 <= begin → begin < end_ → end_ <= len w c →
  let removed := take (Z.to_nat (end_ - begin)) (drop (Z.to_nat begin) (children (obj w c))) in
  let w' := snd (removeChildren c b e w) in
  fst (removeChildren c b e w) = Ret removed ∧
  Z.of_nat (length removed) = end_ - begin ∧
  children (obj w' c)
    = take (Z.to_nat begin) (children (obj w c)) ++ drop (Z.to_nat end_) (children (obj w c)) ∧
  (∀ d, d ≠ c → children (obj w' d) = children (obj w d)) ∧
  (∀ x, parent (obj w' x) = if decide (x ∈ removed) then None else parent (obj w x)) ∧
  (∀ x, x ∈ removed → detached x w').
Proof.
  intros begin end_ Hb Hbe He removed w'.
  assert (Hdef : removeChildren c b e w =
    let '(removed, kept) := splice (children (obj w c)) begin (end_ - begin) in
    (Ret removed,
     emitAll removed Removed c
       (record (OnChildrenChange c b) (detachAll removed (set_children c kept w))))).
  { transitivity
      (if (0 <? end_ - begin) && (end_ - begin <=? end_) then
         let '(removed, kept) := splice (children (obj w c)) begin (end_ - begin) in
         (Ret removed,
          emitAll removed Removed c
            (record (OnChildrenChange c b) (detachAll removed (set_children c kept w))))
       else if (end_ - begin =? 0) && (len w c =? 0) then (Ret [], w)
       else (Throw (RangeError "removeChildren"), w)).
    - unfold removeChildren, begin, end_. by destruct b, e.
    - destruct (Z.ltb_spec 0 (end_ - begin)); [|lia].
      by destruct (Z.leb_spec (end_ - begin) end_); [|lia]. }
  unfold len in He.
  rewrite splice_in_range in Hdef by lia.
  replace (begin + (end_ - begin)) with end_ in Hdef by lia.
  cbv zeta iota beta in Hdef. fold removed in Hdef.
  unfold w'. rewrite Hdef. cbn [fst snd].
  assert (Hparts : children (obj w c)
                   = take (Z.to_nat begin) (children (obj w c)) ++ removed
                     ++ drop (Z.to_nat end_) (children (obj w c))).
  { unfold removed. rewrite <- (take_drop (Z.to_nat begin) (children (obj w c))) at 1.
    f_equal.
    rewrite <- (take_drop (Z.to_nat (end_ - begin)) (drop (Z.to_nat begin) (children (obj w c)))) at 1.
    f_equal. rewrite drop_drop. f_equal. lia. }
  destruct (consistent_cut w c _ removed _ H Hparts) as [_ Hdet].
  split_and!.
  - done.
  - unfold removed. rewrite length_take, length_drop. lia.
  - by rewrite obj_emitAll, obj_record, children_detachAll, children_set_children, decide_True.
  - intros d Hd.
    by rewrite obj_emitAll, obj_record, children_detachAll, children_set_children, decide_False.
  - intros x. by rewrite obj_emitAll, obj_record, parent_detachAll, parent_set_children.
  - intros x Hx d. rewrite obj_emitAll, obj_record. by apply Hdet.
Qed.

Lemma removeChildren_slice_witness :
  fst (removeChildren 1%nat (Some 1) None three_children) = Ret [3; 4]%nat ∧
  children (obj (snd (removeChildren 1%nat (Some 1) None three_children)) 1%nat) = [2%nat].
Proof.
  assert (H : consistent three_children).
  { intros c. unfold obj, three_children.
    change (heap (mkWorld ?h ?l)) with h.
    apply (consistent_addChild 1%nat 2%nat [3%nat; 4%nat] nothing consistent_nothing c). }
  assert (H0 : 0 <= default 0 (Some 1)) by (simpl; lia).
  assert (H1 : default 0 (Some 1) < default (len three_children 1%nat) None)
    by (unfold len; rewrite sample_three; simpl; lia).
  assert (H2 : default (len three_children 1%nat) None <= len three_children 1%nat)
    by (simpl; lia).
  destruct (removeChildren_slice three_children 1%nat (Some 1) None H H0 H1 H2)
    as (Hr & _ & Hk & _).
  split.
  - rewrite Hr. unfold len. rewrite sample_three. reflexivity.
  - rewrite Hk. unfold len. rewrite sample_three. reflexivity.
Defined.

(** ** Adding several children *)

Lemma leaveParent_orphan x w : parent (obj w x) = None → leaveParent x w = w.
Proof. intros Hp. unfold leaveParent. by rewrite Hp. Qed.

Lemma forEach_addChild1_orphans c args w :
  NoDup args → (∀ a, a ∈ args → parent (obj w a) = None) →
  let w' := snd (forEach (addChild1 c) args w) in
  children (obj w' c) = children (obj w c) ++ args ∧
  (∀ d, d ≠ c → children (obj w' d) = children (obj w d)) ∧
  (∀ y, parent (obj w' y) = if decide (y ∈ args) then Some c else parent (obj w y)).
Proof.
  revert w. induction args as [|a args IH]; intros w Hnd Hp.
  - cbn [forEach ret snd]. rewrite app_nil_r. split_and!; [done|done|].
    intros y. destruct (decide (y ∈ [])) as [E|E]; [by apply elem_of_nil in E|done].
  - apply NoDup_cons in Hnd as [Ha Hnd].
    cbn [forEach]. unfold bind.
    assert (Hstep : addChild1 c a w
      = (Ret a, record (Emit a Added c)
                  (record (OnChildrenChange c (Some (len (set_children c (children (obj w c) ++ [a]) (set_parent a (Some c) w)) c - 1)))
                     (set_children c (children (obj w c) ++ [a]) (set_parent a (Some c) w))))).
    { unfold addChild1. rewrite leaveParent_orphan by (apply Hp, elem_of_cons; by left).
      by rewrite children_set_parent. }
    rewrite Hstep. cbv iota beta.
    set (w1 := record _ (record _ _)).
    assert (Hc1 : ∀ d, children (obj w1 d)
                       = if decide (d = c) then children (obj w c) ++ [a]
                         else children (obj w d)).
    { intros d. unfold w1. rewrite !obj_record, children_set_children.
      case_decide; [done|]. by rewrite children_set_parent. }
    assert (Hp1 : ∀ y, parent (obj w1 y) = if decide (y = a) then Some c else parent (obj w y)).
    { intros y. unfold w1. by rewrite !obj_record, parent_set_children, parent_set_parent. }
    destruct (IH w1 Hnd) as (Hch & Hoth & Hpar).
    { intros b Hb. rewrite Hp1, decide_False by (intros ->; done).
      apply Hp, elem_of_cons. by right. }
    split_and!.
    + rewrite Hch, Hc1, decide_True by done. by rewrite <- app_assoc.
    + intros d Hd. by rewrite Hoth, Hc1, decide_False.
    + intros y. rewrite Hpar, Hp1.
      destruct (decide (y ∈ args)) as [Hy|Hy].
      * rewrite decide_True; [done|]. apply elem_of_cons. by right.
      * destruct (decide (y = a)) as [->|Hne].
        -- rewrite decide_True; [done|]. apply elem_of_cons. by left.
        -- rewrite decide_False; [done|]. intros [?|?]%elem_of_cons; done.
Qed.

(** X8: [c.addChild(a, b, ...)] with different, parentless nodes appends them
    to [c.children] in argument order, makes [c] the parent of each,
    touches no other list or parent, and returns the first argument. *)
Theorem addChild_appends_in_order (w : world) (c x : ref) (rest : list ref) :
  NoDup (x :: rest) → (∀ a, a ∈ x :: rest → parent (obj w a) = None) →
  let w' := snd (addChild c x rest w) in
  fst (addChild c x rest w) = Ret x ∧
  children (obj w' c) = children (obj w c) ++ x :: rest ∧
  (∀ d, d ≠ c → children (obj w' d) = children (obj w d)) ∧
  (∀ y, parent (obj w' y) = if decide (y ∈ x :: rest) then Some c else parent (obj w y)).
Proof.
  intros Hnd Hp w'.
  pose proof (forEach_addChild1_orphans c (x :: rest) w Hnd Hp) as Hall.
  assert (Hw : w' = snd (forEach (addChild1 c) (x :: rest) w)
               ∨ (rest = [] ∧ w' = snd (addChild1 c x w))).
  { destruct rest; [by right|left]. unfold w', addChild, bind.
    by destruct (forEach _ _ w) as [[?|?] ?]. }
  assert (Hsame : ∀ y, obj w' y = obj (snd (forEach (addChild1 c) (x :: rest) w)) y).
  { destruct Hw as [->|[-> ->]]; [done|]. intros y. cbn [forEach]. unfold bind.
    by destruct (addChild1 c x w) as [[?|?] ?]. }
  split.
  - destruct rest; [done|]. unfold addChild, bind.
    pose proof (forEach_addChild1_returns c (x :: r :: rest) w) as Hr.
    by destruct (forEach _ _ w) as [[[]|?] ?].
  - destruct Hall as (H1 & H2 & H3). split_and!.
    + by rewrite Hsame.
    + intros d Hd. rewrite Hsame. by apply H2.
    + intros y. rewrite Hsame. apply H3.
Qed.

Lemma addChild_appends_in_order_witness :
  children (obj (snd (addChild 1%nat 2%nat [3; 4]%nat nothing)) 1%nat) = [2; 3; 4]%nat.
Proof.
  apply (addChild_appends_in_order nothing 1%nat 2%nat [3; 4]%nat).
  - apply (bool_decide_unpack _). vm_compute. exact I.
  - intros a _. reflexivity.
Defined.

(** ** Reordering *)

Lemma insert_perm_head {A} (l : list A) (j : nat) (a b : A) :
  l !! j = Some b → b :: <[j:=a]> l ≡ₚ a :: l.
Proof.
  revert j. induction l as [|c l IH]; intros [|j] Hj; simplify_eq/=.
  - apply perm_swap.
  - rewrite perm_swap, (IH j Hj). apply perm_swap.
Qed.

Lemma swap_perm {A} (l : list A) (i j : nat) (a b : A) :
  l !! i = Some a → l !! j = Some b → <[j:=a]> (<[i:=b]> l) ≡ₚ l.
Proof.
  revert i j. induction l as [|c l IH]; intros [|i] [|j] Hi Hj; simplify_eq/=.
  - done.
  - by apply insert_perm_head.
  - by apply insert_perm_head.
  - by rewrite (IH i j Hi Hj).
Qed.

(** A world that differs from a consistent one by a rearrangement of one
    child list is consistent. *)
Lemma consistent_rearranged w w' c :
  consistent w →
  (∀ d, parent (obj w' d) = parent (obj w d)) →
  (∀ d, d ≠ c → children (obj w' d) = children (obj w d)) →
  children (obj w' c) ≡ₚ children (obj w c) →
  consistent w'.
Proof.
  intros H Hp Ho Hc d. destruct (decide (d = c)) as [->|Hd].
  - split.
    + rewrite Hc. apply (H c).
    + intros x Hx. rewrite Hp. apply (H c). by rewrite <- Hc.
  - rewrite (Ho d Hd). split; [apply (H d)|].
    intros x Hx. rewrite Hp. by apply (H d).
Qed.

Lemma swapChildren_present c x y w :
  x ≠ y → x ∈ children (obj w c) → y ∈ children (obj w c) →
  let l := children (obj w c) in
  let n1 := Z.to_nat (indexOf l x) in
  let n2 := Z.to_nat (indexOf l y) in
  swapChildren c x y w
    = (Ret tt,
       record (OnChildrenChange c (Some (if indexOf l x <? indexOf l y
                                         then indexOf l x else indexOf l y)))
         (set_children c (<[n2:=x]> (<[n1:=y]> l)) (set_children c (<[n1:=y]> l) w))).
Proof.
  intros Hne Hx Hy l n1 n2. unfold swapChildren. rewrite decide_False by done.
  unfold bind.
  rewrite (getChildIndex_present c x w Hx), (getChildIndex_present c y w Hy).
  destruct (indexOf_present _ _ Hx) as [Rx _], (indexOf_present _ _ Hy) as [Ry _].
  destruct (Z.ltb_spec (indexOf (children (obj w c)) x) 0); [lia|].
  destruct (Z.ltb_spec (indexOf (children (obj w c)) y) 0); [lia|].
  unfold modify. cbn [orb]. cbv beta iota.
  by rewrite children_set_children, decide_True.
Qed.

Lemma swapChildren_effect (w : world) (c x y : ref) :
  x ≠ y → x ∈ children (obj w c) → y ∈ children (obj w c) →
  let l := children (obj w c) in
  let n1 := Z.to_nat (indexOf l x) in
  let n2 := Z.to_nat (indexOf l y) in
  let w' := snd (swapChildren c x y w) in
  fst (swapChildren c x y w) = Ret tt ∧
  children (obj w' c) !! n1 = Some y ∧
  children (obj w' c) !! n2 = Some x ∧
  (∀ k, k ≠ n1 → k ≠ n2 → children (obj w' c) !! k = l !! k) ∧
  children (obj w' c) ≡ₚ l ∧
  (∀ d, d ≠ c → children (obj w' d) = children (obj w d)) ∧
  (∀ d, parent (obj w' d) = parent (obj w d)) ∧
  (consistent w → consistent w').
Proof.
  intros Hne Hx Hy l n1 n2 w'.
  destruct (indexOf_present _ _ Hx) as [Rx Lx], (indexOf_present _ _ Hy) as [Ry Ly].
  fold l n1 in Lx. fold l n2 in Ly.
  assert (Hn : n1 ≠ n2) by (intros E; rewrite E in Lx; congruence).
  assert (Hc : children (obj w' c) = <[n2:=x]> (<[n1:=y]> l)).
  { unfold w'. rewrite swapChildren_present by done. cbn [snd].
    by rewrite obj_record, children_set_children, decide_True. }
  assert (Ho : ∀ d, d ≠ c → children (obj w' d) = children (obj w d)).
  { intros d Hd. unfold w'. rewrite swapChildren_present by done. cbn [snd].
    by rewrite obj_record, !children_set_children, !decide_False. }
  assert (Hp : ∀ d, parent (obj w' d) = parent (obj w d)).
  { intros d. unfold w'. rewrite swapChildren_present by done. cbn [snd].
    by rewrite obj_record, !parent_set_children. }
  assert (Hperm : children (obj w' c) ≡ₚ l) by (rewrite Hc; by apply swap_perm).
  split_and!; try done.
  - by rewrite swapChildren_present.
  - rewrite Hc, list_lookup_insert_ne by done.
    apply list_lookup_insert_eq. by eapply lookup_lt_Some.
  - rewrite Hc. apply list_lookup_insert_eq. rewrite length_insert. by eapply lookup_lt_Some.
  - intros k H1 H2. by rewrite Hc, !list_lookup_insert_ne.
  - intros H. by apply (consistent_rearranged w w' c).
Qed.

(** X9: [swapChildren(x, y)] for two different children of [c] exchanges their
    places: [y] now sits where [x] was found and [x] where [y] was, every
    other position, list and parent is as before, the list is a
    rearrangement of the old one, and a consistent world stays consistent. *)
Theorem swapChildren_exchanges (w : world) (c x y : ref) :
  x ≠ y → x ∈ children (obj w c) → y ∈ children (obj w c) →
  let l := children (obj w c) in
  let n1 := Z.to_nat (indexOf l x) in
  let n2 := Z.to_nat (indexOf l y) in
  let w' := snd (swapChildren c x y w) in
  fst (swapChildren c x y w) = Ret tt ∧
  children (obj w' c) !! n1 = Some y ∧
  children (obj w' c) !! n2 = Some x ∧
  (∀ k, k ≠ n1 → k ≠ n2 → children (obj w' c) !! k = l !! k) ∧
  children (obj w' c) ≡ₚ l ∧
  (∀ d, d ≠ c → children (obj w' d) = children (obj w d)) ∧
  (∀ d, parent (obj w' d) = parent (obj w d)) ∧
  (consistent w → consistent w').
Proof. apply swapChildren_effect. Qed.

Lemma swapChildren_exchanges_witness :
  children (obj (snd (swapChildren 1%nat 4%nat 2%nat three_children)) 1%nat) !! 2%nat
    = Some 2%nat.
Proof.
  assert (H2 : 2%nat ∈ children (obj three_children 1%nat)).
  { rewrite sample_three. apply (bool_decide_unpack _). vm_compute. exact I. }
  assert (H4 : 4%nat ∈ children (obj three_children 1%nat)).
  { rewrite sample_three. apply (bool_decide_unpack _). vm_compute. exact I. }
  assert (Hne : 4%nat ≠ 2%nat) by discriminate.
  apply (proj1 (proj2 (swapChildren_exchanges three_children 1%nat 4%nat 2%nat Hne H4 H2))).
Defined.

(** X10: Swapping the same two children twice restores the child list, where
    it has no repetition; nothing else had changed. *)
Theorem swapChildren_twice (w : world) (c x y : ref) :
  NoDup (children (obj w c)) →
  x ∈ children (obj w c) → y ∈ children (obj w c) →
  let w2 := snd (swapChildren c x y (snd (swapChildren c x y w))) in
  ∀ d, children (obj w2 d) = children (obj w d) ∧ parent (obj w2 d) = parent (obj w d).
Proof.
  intros Hnd Hx Hy w2 d.
  destruct (decide (x = y)) as [->|Hne].
  { unfold w2, swapChildren. by rewrite decide_True. }
  set (l := children (obj w c)) in *.
  set (n1 := Z.to_nat (indexOf l x)). set (n2 := Z.to_nat (indexOf l y)).
  destruct (indexOf_present _ _ Hx) as [Rx Lx], (indexOf_present _ _ Hy) as [Ry Ly].
  fold n1 in Lx. fold n2 in Ly.
  assert (Hn : n1 ≠ n2) by (intros E; rewrite E in Lx; congruence).
  destruct (swapChildren_effect w c x y Hne Hx Hy)
    as (_ & A1 & A2 & _ & P1 & O1 & Q1 & _).
  fold l n1 n2 in A1, A2, P1.
  set (w1 := snd (swapChildren c x y w)) in *.
  assert (Hnd1 : NoDup (children (obj w1 c))) by (by rewrite P1).
  assert (Hx1 : x ∈ children (obj w1 c)) by (by rewrite P1).
  assert (Hy1 : y ∈ children (obj w1 c)) by (by rewrite P1).
  assert (Hc1 : children (obj w1 c) = <[n2:=x]> (<[n1:=y]> l)).
  { unfold w1. rewrite swapChildren_present by done. cbn [snd].
    by rewrite obj_record, children_set_children, decide_True. }
  assert (I1 : indexOf (children (obj w1 c)) x = Z.of_nat n2) by (by apply indexOf_NoDup).
  assert (I2 : indexOf (children (obj w1 c)) y = Z.of_nat n1) by (by apply indexOf_NoDup).
  unfold w2. rewrite swapChildren_present by done. cbn [snd].
  rewrite obj_record, !parent_set_children, !children_set_children.
  split; [|apply Q1].
  case_decide as Ed; [subst d|by apply O1].
  rewrite I1, I2, !Nat2Z.id, Hc1.
  rewrite list_insert_insert_eq.
  rewrite (list_insert_insert_ne _ n2 n1) by done.
  rewrite (list_insert_id l n2 y Ly).
  rewrite list_insert_insert_eq.
  by apply list_insert_id.
Qed.

Lemma swapChildren_twice_witness :
  children (obj (snd (swapChildren 1%nat 4%nat 2%nat
                        (snd (swapChildren 1%nat 4%nat 2%nat three_children)))) 1%nat)
    = children (obj three_children 1%nat).
Proof.
  assert (H2 : 2%nat ∈ children (obj three_children 1%nat)).
  { rewrite sample_three. apply (bool_decide_unpack _). vm_compute. exact I. }
  assert (H4 : 4%nat ∈ children (obj three_children 1%nat)).
  { rewrite sample_three. apply (bool_decide_unpack _). vm_compute. exact I. }
  assert (Hnd : NoDup (children (obj three_children 1%nat))).
  { rewrite sample_three. apply (bool_decide_unpack _). vm_compute. exact I. }
  apply (swapChildren_twice three_children 1%nat 4%nat 2%nat Hnd H4 H2 1%nat).
Defined.

(** X11: [setChildIndex(x, i)] for a child [x] and [0 <= i < length] takes [x]
    out and puts it back at index [i]: the new list is the other children in
    their old order with [x] inserted at [i]; the hook is called once, with
    [i]; and moving a child to the index it already has changes no list. *)
Theorem setChildIndex_moves (w : world) (c x : ref) (i : Z) :
  x ∈ children (obj w c) → 0 <= i < len w c →
  let w' := snd (setChildIndex c x i w) in
  ∃ before after,
    children (obj w c) = before ++ x :: after ∧ (x ∉ before) ∧
    fst (setChildIndex c x i w) = Ret tt ∧
    children (obj w' c)
      = take (Z.to_nat i) (before ++ after) ++ x :: drop (Z.to_nat i) (before ++ after) ∧
    children (obj w' c) !! Z.to_nat i = Some x ∧
    children (obj w' c) ≡ₚ children (obj w c) ∧
    log w' = log w ++ [OnChildrenChange c (Some i)] ∧
    (i = Z.of_nat (length before) → children (obj w' c) = children (obj w c)) ∧
    (consistent w → consistent w').
Proof.
  intros Hx Hi w'.
  destruct (indexOf_split _ _ Hx) as (l1 & l2 & Hl & Hn1 & Hidx).
  exists l1, l2. split; [done|]. split; [done|].
  assert (Hlen : len w c = Z.of_nat (length l1 + S (length l2))).
  { unfold len. rewrite Hl, length_app. done. }
  assert (Hrun : setChildIndex c x i w
    = (Ret tt, record (OnChildrenChange c (Some i))
                 (set_children c (spliceInsert (l1 ++ l2) i x)
                    (set_children c (l1 ++ l2) w)))).
  { unfold setChildIndex.
    destruct (Z.ltb_spec i 0); [lia|]. destruct (Z.leb_spec (len w c) i); [lia|].
    cbn [orb]. cbv iota. unfold bind. rewrite getChildIndex_present by done.
    unfold modify. cbv beta iota.
    rewrite Hidx, Hl, removeItems_middle.
    by rewrite children_set_children, decide_True. }
  assert (Hins : spliceInsert (l1 ++ l2) i x
                 = take (Z.to_nat i) (l1 ++ l2) ++ x :: drop (Z.to_nat i) (l1 ++ l2)).
  { unfold spliceInsert, spliceStart. destruct (Z.ltb_spec i 0); [lia|].
    rewrite Z.min_l; [done|]. rewrite length_app. lia. }
  assert (Hc : children (obj w' c)
               = take (Z.to_nat i) (l1 ++ l2) ++ x :: drop (Z.to_nat i) (l1 ++ l2)).
  { unfold w'. rewrite Hrun. cbn [snd].
    by rewrite obj_record, children_set_children, decide_True, Hins. }
  assert (Hperm : children (obj w' c) ≡ₚ children (obj w c)).
  { rewrite Hc, Hl, <- !Permutation_middle. by rewrite take_drop. }
  split_and!.
  - by rewrite Hrun.
  - done.
  - rewrite Hc. apply list_lookup_middle.
    rewrite length_take, length_app. lia.
  - done.
  - unfold w'. by rewrite Hrun.
  - intros ->. rewrite Hc, Hl, Nat2Z.id.
    by rewrite take_app_length, drop_app_length.
  - intros H. apply (consistent_rearranged w w' c H); [| |done].
    + intros d. unfold w'. rewrite Hrun. cbn [snd].
      by rewrite obj_record, !parent_set_children.
    + intros d Hd. unfold w'. rewrite Hrun. cbn [snd].
      by rewrite obj_record, !children_set_children, !decide_False.
Qed.

Lemma setChildIndex_moves_witness :
  children (obj (snd (setChildIndex 1%nat 2%nat 2 three_children)) 1%nat) !! 2%nat
    = Some 2%nat.
Proof.
  assert (H2 : 2%nat ∈ children (obj three_children 1%nat)).
  { rewrite sample_three. apply (bool_decide_unpack _). vm_compute. exact I. }
  assert (Hi : 0 <= 2 < len three_children 1%nat).
  { unfold len. rewrite sample_three. simpl. lia. }
  destruct (setChildIndex_moves three_children 1%nat 2%nat 2 H2 Hi)
    as (before & after & _ & _ & _ & _ & Hat & _).
  exact Hat.
Defined.

(** ** Notifications *)

Lemma log_emitAll_removed l c w :
  log (emitAll l Removed c w) = log w ++ map (λ x, Emit x Removed c) l.
Proof.
  revert w. induction l as [|a l IH]; intros w; simpl.
  - by rewrite app_nil_r.
  - rewrite IH. simpl. by rewrite <- app_assoc.
Qed.

Lemma log_detachAll_same l w : log (detachAll l w) = log w.
Proof. revert w. induction l as [|a l IH]; intros w; simpl; [done|]. by rewrite IH. Qed.

(** X12: A [removeChildren] that returns through its splice, also one that
    found nothing to remove, calls the hook once and then signals 'removed'
    once per removed child, in list order; the empty range on an empty list
    signals nothing. *)
Theorem removeChildren_notifications (w : world) (c : ref) (b e : option Z) :
  let begin := default 0 b in
  let end_ := default (len w c) e in
  ∀ removed w', removeChildren c b e w = (Ret removed, w') →
    (begin < end_ →
       log w' = log w ++ OnChildrenChange c b :: map (λ x, Emit x Removed c) removed) ∧
    (begin = end_ → removed = [] ∧ w' = w).
Proof.
  intros begin end_ removed w'.
  assert (Hdef : removeChildren c b e w =
    if (0 <? end_ - begin) && (end_ - begin <=? end_) then
      let '(removed, kept) := splice (children (obj w c)) begin (end_ - begin) in
      (Ret removed,
       emitAll removed Removed c
         (record (OnChildrenChange c b) (detachAll removed (set_children c kept w))))
    else if (end_ - begin =? 0) && (len w c =? 0) then (Ret [], w)
    else (Throw (RangeError "removeChildren"), w)).
  { unfold removeChildren, begin, end_. by destruct b, e. }
  rewrite Hdef. clear Hdef.
  destruct (Z.ltb_spec 0 (end_ - begin)) as [Hpos|Hpos]; cbn [andb].
  - destruct (end_ - begin <=? end_).
    + destruct (splice (children (obj w c)) begin (end_ - begin)) as [r kept].
      intros [= <- <-]. split; [|lia]. intros _.
      rewrite log_emitAll_removed. simpl. rewrite log_detachAll_same. simpl.
      by rewrite <- app_assoc.
    + destruct (Z.eqb_spec (end_ - begin) 0); [lia|done].
  - destruct (Z.eqb_spec (end_ - begin) 0); [|done].
    destruct (len w c =? 0); [|done].
    intros [= <- <-]. split; [lia|done].
Qed.

Lemma removeChildren_notifications_witness :
  log (snd (removeChildren 1%nat (Some 1) None three_children))
    = log three_children
      ++ OnChildrenChange 1%nat (Some 1)
         :: map (λ x, Emit x Removed 1%nat) [3; 4]%nat.
Proof.
  apply (proj1 (removeChildren_notifications three_children 1%nat (Some 1) None
                  [3; 4]%nat (snd (removeChildren 1%nat (Some 1) None three_children))
                  eq_refl)).
  unfold len. rewrite sample_three. simpl. lia.
Defined.

(** X13: Moving a child to another parent signals in this order: the old
    parent's hook with the vacated index, 'removed' from the old parent, the
    new parent's hook with the last index, 'added' to the new parent. *)
Theorem addChild_notifications (w : world) (c p x : ref) :
  parent (obj w x) = Some p → x ∈ children (obj w p) →
  let w' := snd (addChild c x [] w) in
  log w' = log w ++ [OnChildrenChange p (Some (indexOf (children (obj w p)) x));
                     Emit x Removed p;
                     OnChildrenChange c (Some (len w' c - 1));
                     Emit x Added c].
Proof.
  intros Hp Hin w'.
  destruct (removeChild1_present p x w Hin) as (l1 & l2 & Hl & Hn & Hrun).
  assert (Hidx : indexOf (children (obj w p)) x = Z.of_nat (length l1)).
  { destruct (indexOf_split _ _ Hin) as (k1 & k2 & Hk & Hnk & Hi).
    rewrite Hi. f_equal.
    assert (Hat1 : children (obj w p) !! length l1 = Some x)
      by (rewrite Hl; by apply list_lookup_middle).
    assert (Hat2 : children (obj w p) !! length k1 = Some x)
      by (rewrite Hk; by apply list_lookup_middle).
    destruct (Nat.lt_trichotomy (length k1) (length l1)) as [Hlt|[Heq|Hgt]]; [|done|].
    - exfalso. apply Hn. rewrite Hl in Hat2.
      rewrite lookup_app_l in Hat2 by done. by eapply list_elem_of_lookup_2.
    - exfalso. apply Hnk. rewrite Hk in Hat1.
      rewrite lookup_app_l in Hat1 by done. by eapply list_elem_of_lookup_2. }
  assert (Hleave : leaveParent x w = snd (removeChild1 p x w)).
  { unfold leaveParent. by rewrite Hp. }
  unfold w', addChild, addChild1. cbn [snd]. rewrite Hleave, Hrun. cbn [snd].
  set (w3 := set_children c _ _).
  change (len (record (Emit x Added c)
                 (record (OnChildrenChange c (Some (len w3 c - 1))) w3)) c)
    with (len w3 c).
  assert (H3 : log w3 = log w ++ [OnChildrenChange p (Some (Z.of_nat (length l1)));
                                   Emit x Removed p]).
  { unfold w3, set_children, set_parent, record. cbn [log]. by rewrite <- app_assoc. }
  unfold record. cbn [log]. rewrite H3, Hidx. by rewrite <- !app_assoc.
Qed.

Lemma addChild_notifications_witness :
  log (snd (addChild 5%nat 3%nat [] (snd (addChild 1%nat 2%nat [3%nat] nothing))))
    = log (snd (addChild 1%nat 2%nat [3%nat] nothing))
      ++ [OnChildrenChange 1%nat (Some 1); Emit 3%nat Removed 1%nat;
          OnChildrenChange 5%nat (Some 0); Emit 3%nat Added 5%nat].
Proof.
  apply (addChild_notifications (snd (addChild 1%nat 2%nat [3%nat] nothing))
           5%nat 1%nat 3%nat).
  - reflexivity.
  - apply (bool_decide_unpack _). vm_compute. exact I.
Defined.

End SceneMore.

(* ===================================================================== *)
(** * Further properties of the traversals *)
(* ===================================================================== *)

Module GraphMore.
Import Graph GraphTheory Effects.

Section More.

Context {Transform : Type}.
Abbreviation Container := (@Container Transform).
Abbreviation DisplayObject := (@DisplayObject Transform).

(** ** The calls of renderWebGL, node by node *)

Lemma passes_gates (d : DisplayObject) :
  passes d = negb (negb (visible d)) && negb (Qle_bool (worldAlpha d) 0 || negb (renderable d)).
Proof.
  unfold passes. by destruct (visible d), (Qle_bool (worldAlpha d) 0), (renderable d).
Qed.

Lemma renderWebGL_shape (k : Z) (d : DisplayObject) (cs : list Container) :
  calls (renderWebGL k (Node d cs))
    = if passes d
      then prologue d ++ calls (renderChildren renderWebGL (incDisplayOrder k) cs)
           ++ epilogue d
      else [].
Proof.
  rewrite passes_gates. unfold calls, prologue, epilogue. simpl.
  destruct (visible d); simpl; [|done].
  destruct (Qle_bool (worldAlpha d) 0 || negb (renderable d)); simpl; [done|].
  destruct (truthy (_mask d) || truthy (_filters d));
    destruct (renderChildren renderWebGL (incDisplayOrder k) cs) as [[k2 r] t2]; simpl.
  - by rewrite <- !app_assoc.
  - by rewrite app_nil_r.
Qed.

Lemma renderChildren_calls (k : Z) (c : Container) (rest : list Container) :
  calls (renderChildren renderWebGL k (c :: rest))
    = calls (renderWebGL k c)
      ++ calls (renderChildren renderWebGL (fst (fst (renderWebGL k c))) rest).
Proof. unfold calls. by rewrite renderChildren_cons. Qed.

(** ** The effect stack *)

Lemma replay_app (s : list entry) (a b : list call) :
  replay s (a ++ b) = match replay s a with Some s' => replay s' b | None => None end.
Proof.
  revert s. induction a as [|c a IH]; intros s; [done|].
  destruct c; simpl; try apply IH.
  - by destruct s as [|[]].
  - destruct s as [|[t m|t m] below]; try done.
    by destruct (_ && _).
Qed.

Lemma replayMasks_app (s : list (nat * Mask)) (a b : list call) :
  replayMasks s (a ++ b)
    = match replayMasks s a with Some s' => replayMasks s' b | None => None end.
Proof.
  revert s. induction a as [|c a IH]; intros s; [done|].
  destruct c; simpl; try apply IH.
  destruct s as [|[t m] below]; [done|]. by destruct (_ && _).
Qed.

Lemma replay_prologue (d : DisplayObject) (s : list entry) :
  replay s (prologue d) = Some (pushed d s).
Proof.
  unfold prologue, pushed.
  by destruct (_mask d), (_filters d) as [[|f fs]|].
Qed.

Lemma replay_epilogue (d : DisplayObject) (s : list entry) :
  _filters d ≠ Some [] → replay (pushed d s) (epilogue d) = Some s.
Proof.
  intros Hf. unfold epilogue, pushed.
  destruct (_mask d), (_filters d) as [[|f fs]|]; simpl; try done;
    by rewrite !Nat.eqb_refl.
Qed.

(** X14: The effect stack is a stack: in a tree where no [_filters] is the
    empty array, replaying the calls of [renderWebGL] against the combined
    stack of mask and filter entries never pops a missing or foreign entry
    and ends with the stack it started from. *)
Theorem renderWebGL_stack_discipline (t : Container) :
  noEmptyFilters t = true →
  ∀ (k : Z) (s : list entry), replay s (calls (renderWebGL k t)) = Some s.
Proof.
  induction t as [d cs IH] using Container_tree_ind.
  intros Hne k s. simpl in Hne. apply andb_true_iff in Hne as [Hd Hcs].
  rewrite renderWebGL_shape. destruct (passes d); [|done].
  rewrite replay_app, replay_prologue.
  assert (Hkids : ∀ k' s', replay s' (calls (renderChildren renderWebGL k' cs)) = Some s').
  { clear Hd. induction IH as [|c rest Hc Hrest IHrest]; intros k' s'; [done|].
    simpl in Hcs. apply andb_true_iff in Hcs as [H1 H2].
    rewrite renderChildren_calls, replay_app, (Hc H1). by apply IHrest. }
  rewrite replay_app, Hkids. apply replay_epilogue. by destruct (_filters d) as [[|]|].
Qed.

Lemma replayMasks_prologue (d : DisplayObject) (s : list (nat * Mask)) :
  replayMasks s (prologue d) = Some (pushedMasks d s).
Proof.
  unfold prologue, pushedMasks.
  by destruct (_mask d), (_filters d) as [[|f fs]|].
Qed.

Lemma replayMasks_epilogue (d : DisplayObject) (s : list (nat * Mask)) :
  replayMasks (pushedMasks d s) (epilogue d) = Some s.
Proof.
  unfold epilogue, pushedMasks.
  destruct (_mask d), (_filters d) as [[|f fs]|]; simpl; try done;
    by rewrite !Nat.eqb_refl.
Qed.

(** X15: Masks are always paired: for every tree, whatever its filters,
    replaying the calls of [renderWebGL] against the mask stack pops, at
    each [popMask], the mask pushed last for the same node, and ends with
    the stack it started from. *)
Theorem renderWebGL_masks_paired (t : Container) (k : Z) (s : list (nat * Mask)) :
  replayMasks s (calls (renderWebGL k t)) = Some s.
Proof.
  revert k s. induction t as [d cs IH] using Container_tree_ind. intros k s.
  rewrite renderWebGL_shape. destruct (passes d); [|done].
  rewrite replayMasks_app, replayMasks_prologue.
  assert (Hkids : ∀ k' s',
            replayMasks s' (calls (renderChildren renderWebGL k' cs)) = Some s').
  { induction IH as [|c rest Hc Hrest IHrest]; intros k' s'; [done|].
    rewrite renderChildren_calls, replayMasks_app, Hc. by apply IHrest. }
  rewrite replayMasks_app, Hkids. apply replayMasks_epilogue.
Qed.

(** ** The order of drawing *)

Lemma filter_own_prologue (d : DisplayObject) :
  List.filter isRenderOwn (prologue d) = [_renderWebGL (id d)].
Proof. unfold prologue. by destruct (_mask d), (_filters d) as [[|f fs]|]. Qed.

Lemma filter_own_epilogue (d : DisplayObject) :
  List.filter isRenderOwn (epilogue d) = [].
Proof. unfold epilogue. by destruct (_mask d), (_filters d) as [[|f fs]|]. Qed.

(** X16: Own geometry is drawn parent first, then the children in index order:
    the [_renderWebGL] calls of a traversal are those of the nodes reached,
    in depth-first order; and in a tree without masks and filters the
    traversal makes no other call, so no batch is flushed. *)
Theorem renderWebGL_draws_in_order (t : Container) (k : Z) :
  List.filter isRenderOwn (calls (renderWebGL k t)) = map _renderWebGL (reached t) ∧
  (unadorned t = true → calls (renderWebGL k t) = map _renderWebGL (reached t)).
Proof.
  revert k. induction t as [d cs IH] using Container_tree_ind. intros k.
  rewrite renderWebGL_shape. cbn [reached unadorned].
  destruct (passes d); [|done].
  assert (Hkids : ∀ k',
    List.filter isRenderOwn (calls (renderChildren renderWebGL k' cs))
      = map _renderWebGL (flat_map reached cs) ∧
    (forallb unadorned cs = true →
       calls (renderChildren renderWebGL k' cs) = map _renderWebGL (flat_map reached cs))).
  { induction IH as [|c rest Hc Hrest IHrest]; intros k'; [done|].
    rewrite renderChildren_calls. cbn [flat_map forallb]. rewrite List.filter_app, map_app.
    destruct (Hc k') as [H1 H2].
    destruct (IHrest (fst (fst (renderWebGL k' c)))) as [H3 H4].
    split; [by rewrite H1, H3|].
    intros [Hu1 Hu2]%andb_true_iff. by rewrite H2, H4. }
  destruct (Hkids (incDisplayOrder k)) as [H1 H2]. split.
  - rewrite !List.filter_app, filter_own_prologue, filter_own_epilogue, H1.
    by rewrite app_nil_r.
  - intros [[Hm Hf]%andb_true_iff Hu]%andb_true_iff.
    rewrite (H2 Hu). unfold prologue, epilogue.
    destruct (truthy (_mask d)), (truthy (_filters d)); try done.
    simpl. by rewrite app_nil_r.
Qed.

(** ** Display order *)

Lemma renderChildren_counter_tree (c : Container) (rest : list Container) (k : Z) :
  renderChildren renderWebGL k (c :: rest)
    = (fst (fst (renderChildren renderWebGL (fst (fst (renderWebGL k c))) rest)),
       snd (fst (renderWebGL k c))
         :: snd (fst (renderChildren renderWebGL (fst (fst (renderWebGL k c))) rest)),
       snd (renderWebGL k c)
         ++ snd (renderChildren renderWebGL (fst (fst (renderWebGL k c))) rest)).
Proof. by rewrite renderChildren_cons. Qed.

Lemma renderWebGL_node (k : Z) (d : DisplayObject) (cs : list Container) :
  passes d = true →
  fst (renderWebGL k (Node d cs))
    = (fst (fst (renderChildren renderWebGL (incDisplayOrder k) cs)),
       Node (set_displayOrder (incDisplayOrder k) d)
            (snd (fst (renderChildren renderWebGL (incDisplayOrder k) cs)))).
Proof.
  rewrite passes_gates. simpl.
  destruct (visible d); simpl; [|done].
  destruct (Qle_bool (worldAlpha d) 0 || negb (renderable d)); simpl; [done|].
  intros _.
  destruct (truthy (_mask d) || truthy (_filters d));
    by destruct (renderChildren renderWebGL (incDisplayOrder k) cs) as [[k2 r] t2].
Qed.

(** X17: In a tree where every node passes the gates, one [renderWebGL] pass
    from counter [k] gives the root display order [k + 1] and every child,
    at every depth, a display order above its parent's; the counter ends
    above [k]. *)
Theorem renderWebGL_pre_order (t : Container) :
  drawable t = true →
  ∀ k : Z,
    k < fst (fst (renderWebGL k t)) ∧
    displayOrder (self (snd (fst (renderWebGL k t)))) = k + 1 ∧
    preOrdered (snd (fst (renderWebGL k t))) = true.
Proof.
  induction t as [d cs IH] using Container_tree_ind.
  intros Hd k. cbn [drawable] in Hd. apply andb_true_iff in Hd as [Hp Hcs].
  rewrite renderWebGL_node by done. cbn [fst snd self preOrdered].
  assert (Hkids : ∀ k',
    k' <= fst (fst (renderChildren renderWebGL k' cs)) ∧
    Forall (λ c, k' < displayOrder (self c) ∧ preOrdered c = true)
           (snd (fst (renderChildren renderWebGL k' cs)))).
  { clear Hp. induction IH as [|c rest Hc Hrest IHrest]; intros k'.
    - simpl. split; [lia|constructor].
    - cbn [forallb] in Hcs. apply andb_true_iff in Hcs as [H1 H2].
      rewrite renderChildren_counter_tree. cbn [fst snd].
      destruct (Hc H1 k') as (Hlt & Hst & Hpo).
      destruct (IHrest H2 (fst (fst (renderWebGL k' c)))) as [Hle Hall].
      split; [lia|]. constructor; [split; [lia|done]|].
      eapply Forall_impl; [exact Hall|]. intros c' [? ?]. split; [lia|done]. }
  destruct (Hkids (incDisplayOrder k)) as [Hle Hall]. unfold incDisplayOrder in *.
  split; [lia|]. split; [done|].
  apply forallb_forall. intros c Hin.
  rewrite Forall_forall in Hall. apply list_elem_of_In in Hin.
  destruct (Hall c Hin) as [Hs Hpo].
  apply andb_true_iff. split; [apply Z.ltb_lt; simpl; lia | done].
Qed.

(** ** updateTransform *)

Section Transforms.

Variable compose : Transform → Transform → Transform.

Lemma forChildren_cons_eq (m : Z → Container → Z * Container) k c rest :
  forChildren m k (c :: rest)
    = (fst (forChildren m (fst (m k c)) rest),
       snd (m k c) :: snd (forChildren m (fst (m k c)) rest)).
Proof.
  simpl. destruct (m k c) as [k1 c1]. simpl. by destruct (forChildren m k1 rest).
Qed.

(** X18: One pass advances the update counter by the number of nodes it
    visits: invisible nodes, and everything below them, do not count. *)
Theorem updateTransform_counts_visited (t : Container) (pw : Transform) (k : Z) :
  fst (updateTransform compose pw k t) = k + visited t.
Proof.
  revert pw k. induction t as [d cs IH] using Container_tree_ind. intros pw k.
  cbn [visited]. destruct (visible d) eqn:Hv.
  - rewrite updateTransform_visible by done. cbn [fst]. unfold incUpdateOrder.
    generalize (worldTransform (displayObjectUpdateTransform compose pw d)). intros w.
    assert (Hkids : ∀ k', fst (forChildren (updateTransform compose w) k' cs)
                          = k' + fold_right (λ c n, visited c + n) 0 cs).
    { induction IH as [|c rest Hc Hrest IHrest]; intros k'; [simpl; lia|].
      rewrite forChildren_cons_eq. cbn [fst fold_right]. rewrite IHrest, Hc. lia. }
    rewrite Hkids. lia.
  - rewrite updateTransform_invisible by done. simpl. lia.
Qed.

(** X19: After a pass over a tree of visible nodes every world transform is the
    parent's new world transform composed with the node's local one. *)
Theorem updateTransform_coherent (t : Container) :
  allVisible t = true →
  ∀ (pw : Transform) (k : Z), coherent compose pw (snd (updateTransform compose pw k t)).
Proof.
  induction t as [d cs IH] using Container_tree_ind.
  intros Hvis pw k. cbn [allVisible] in Hvis. apply andb_true_iff in Hvis as [Hv Hcs].
  rewrite updateTransform_visible by done. cbn [snd coherent].
  split; [done|].
  change (worldTransform (set_updatePostOrder _ (displayObjectUpdateTransform compose pw d)))
    with (worldTransform (displayObjectUpdateTransform compose pw d)).
  generalize (worldTransform (displayObjectUpdateTransform compose pw d)). intros w.
  revert k. induction IH as [|c rest Hc Hrest IHrest]; intros k; [done|].
  cbn [forallb] in Hcs. apply andb_true_iff in Hcs as [H1 H2].
  rewrite forChildren_cons_eq. cbn [snd allOf]. split; [by apply Hc | by apply IHrest].
Qed.

End Transforms.

(** ** Memoized bounds *)



(** ** The union encloses what went in *)

Lemma coords_inv (r : Rectangle) px py w h :
  coords r = Some (px, py, w, h) →
  x r = Num px ∧ y r = Num py ∧ width r = Num w ∧ height r = Num h.
Proof.
  unfold coords. destruct (x r), (y r), (width r), (height r); try done.
  by intros [= -> -> -> ->].
Qed.

Lemma include_within_self (r : Rectangle) (e : extent) :
  coords r ≠ None → ready e → within (include r e) r.
Proof.
  intros Hr He. destruct (coords r) as [[[[px py] w] h]|] eqn:Hc; [|done].
  destruct (coords_inv r _ _ _ _ Hc) as (Hx & Hy & Hw & Hh).
  unfold within, include. rewrite Hx, Hy, Hw, Hh. cbn [minX minY maxX maxY plus].
  destruct He as [(-> & -> & -> & ->)|(a & b & A & B & -> & -> & -> & ->)].
  - exists px, py, (w + px), (h + py), px, py, w, h. simpl. split_and!; try done; lia.
  - unfold gt. cbn [lt].
    exists (if a <? px then a else px), (if b <? py then b else py),
           (if w + px <? A then A else w + px), (if h + py <? B then B else h + py),
           px, py, w, h.
    split_and!; try done;
      [by destruct (a <? px) | by destruct (b <? py)
      | by destruct (w + px <? A) | by destruct (h + py <? B)
      | destruct (Z.ltb_spec a px); lia | destruct (Z.ltb_spec b py); lia
      | destruct (Z.ltb_spec (w + px) A); lia | destruct (Z.ltb_spec (h + py) B); lia].
Qed.

Lemma include_within_other (r r0 : Rectangle) (e : extent) :
  coords r ≠ None → within e r0 → within (include r e) r0.
Proof.
  intros Hr (a & b & A & B & px0 & py0 & w0 & h0 & Ha & Hb & HA & HB & Hc0 & H1 & H2 & H3 & H4).
  destruct (coords r) as [[[[px py] w] h]|] eqn:Hc; [|done].
  destruct (coords_inv r _ _ _ _ Hc) as (Hx & Hy & Hw & Hh).
  unfold within, include. rewrite Hx, Hy, Hw, Hh, Ha, Hb, HA, HB.
  cbn [minX minY maxX maxY plus]. unfold gt. cbn [lt].
  exists (if a <? px then a else px), (if b <? py then b else py),
         (if w + px <? A then A else w + px), (if h + py <? B then B else h + py),
         px0, py0, w0, h0.
  split_and!; try done;
    [by destruct (a <? px) | by destruct (b <? py)
    | by destruct (w + px <? A) | by destruct (h + py <? B)
    | destruct (Z.ltb_spec a px); lia | destruct (Z.ltb_spec b py); lia
    | destruct (Z.ltb_spec (w + px) A); lia | destruct (Z.ltb_spec (h + py) B); lia].
Qed.

Lemma within_ready (e : extent) (r : Rectangle) : within e r → ready e.
Proof.
  intros (a & b & A & B & ? & ? & ? & ? & Ha & Hb & HA & HB & _).
  right. by exists a, b, A, B.
Qed.

Lemma within_encloses (e : extent) (r : Rectangle) : within e r → encloses (written e) r.
Proof.
  intros (a & b & A & B & px & py & w & h & Ha & Hb & HA & HB & Hc & H1 & H2 & H3 & H4).
  unfold encloses, written, coords at 1. cbn [x y width height].
  rewrite Ha, Hb, HA, HB, Hc. simpl. lia.
Qed.

Section Enclosing.

Variable get : Container → rectRef * Container.

Lemma unionOf_within (l : list Container) :
  (∀ c r, In c l → fst (get c) = Rect r → coords r ≠ None) →
  ∀ e, ready e →
    (∀ r0, within e r0 → within (unionOf get l e) r0) ∧
    (∀ c r, In c l → fst (get c) = Rect r → within (unionOf get l e) r).
Proof.
  induction l as [|c l IH]; intros Hfin e He.
  - split; [done|]. by intros c r [].
  - assert (Hfin' : ∀ c' r, In c' l → fst (get c') = Rect r → coords r ≠ None).
    { intros c' r Hin. apply Hfin. by right. }
    unfold unionOf. cbn [foldl]. fold (unionOf get l).
    destruct (fst (get c)) as [|rc] eqn:Hg.
    + destruct (IH Hfin' e He) as [I1 I2]. split; [done|].
      intros c' r [<-|Hin] Hr; [congruence|]. by apply (I2 c').
    + assert (Hrc : coords rc ≠ None) by (apply (Hfin c rc); [by left|done]).
      pose proof (include_within_self rc e Hrc He) as Hself.
      destruct (IH Hfin' (include rc e) (within_ready _ _ Hself)) as [I1 I2].
      split.
      * intros r0 Hr0. by apply I1, include_within_other.
      * intros c' r [<-|Hin] Hr.
        -- rewrite Hg in Hr. injection Hr as <-. by apply I1.
        -- by apply (I2 c').
Qed.

Lemma unionOfContributing_encloses (cs : list Container) :
  (∀ c r, In c cs → fst (get c) = Rect r → coords r ≠ None) →
  ∀ c r, In c cs → visible (self c) = true → fst (get c) = Rect r →
    ∃ b, unionOfContributing get cs = Rect b ∧ encloses b r.
Proof.
  intros Hfin c r Hin Hv Hr.
  assert (Hc : In c (List.filter (contributes get) cs)).
  { apply filter_In. split; [done|]. unfold contributes. by rewrite Hv, Hr. }
  unfold unionOfContributing.
  destruct (List.filter (contributes get) cs) as [|a taking] eqn:Hf; [done|].
  eexists. split; [done|]. apply within_encloses.
  rewrite <- Hf in *.
  apply (unionOf_within (List.filter (contributes get) cs)) with (c := c); try done.
  - intros c' r' [Hin' _]%filter_In. by apply Hfin.
  - left. done.
Qed.

End Enclosing.

Lemma exact_coords (r : Rectangle) : exact r → coords r ≠ None.
Proof. unfold exact. by destruct (coords r). Qed.

(** X21: The bounds of a Container enclose the bounds of each visible child:
    with no [_localBounds], nothing cached and no geometry of its own, and
    children whose bounds have integer coordinates with all four edges of
    magnitude at most 2^52 (where the additions and subtractions of the loop
    are exact in doubles), [getBounds] returns a rectangle that reaches at
    least as far, on all four sides, as the bounds of every visible child
    that has any; and so does [getComputedBounds]. *)
Theorem bounds_enclose_children (d : DisplayObject) (cs : list Container) :
  _localBounds d = None →
  (_currentBounds d = None → projectedGeometry d = None →
   (∀ c r, In c cs → fst (getBounds c) = Rect r → exact r) →
   ∀ c r, In c cs → visible (self c) = true → fst (getBounds c) = Rect r →
     ∃ b, fst (getBounds (Node d cs)) = Rect b ∧ encloses b r) ∧
  (_currentComputedBounds d = None → geometry d = None →
   (∀ c r, In c cs → fst (getComputedBounds c) = Rect r → exact r) →
   ∀ c r, In c cs → visible (self c) = true → fst (getComputedBounds c) = Rect r →
     ∃ b, fst (getComputedBounds (Node d cs)) = Rect b ∧ encloses b r).
Proof.
  intros Hl. split.
  - intros Hc Hg Hex c r Hin Hv Hr.
    assert (Hfin : ∀ c r, In c cs → fst (getBounds c) = Rect r → coords r ≠ None).
    { intros c' r' Hin' Hr'. by apply exact_coords, (Hex c'). }
    destruct (unionOfContributing_encloses getBounds cs Hfin c r Hin Hv Hr) as (b & Hb & He).
    exists b. split; [|done]. simpl. rewrite Hl, Hc, Hg.
    pose proof (childBounds_result getBounds cs) as Hres.
    destruct (childBounds getBounds cs) as [[fromChildren contents] cs1].
    simpl in *. by rewrite Hres.
  - intros Hc Hg Hex c r Hin Hv Hr.
    assert (Hfin : ∀ c r, In c cs → fst (getComputedBounds c) = Rect r → coords r ≠ None).
    { intros c' r' Hin' Hr'. by apply exact_coords, (Hex c'). }
    destruct (unionOfContributing_encloses getComputedBounds cs Hfin c r Hin Hv Hr)
      as (b & Hb & He).
    exists b. split; [|done]. simpl. rewrite Hl, Hc, Hg.
    pose proof (childBounds_result getComputedBounds cs) as Hres.
    destruct (childBounds getComputedBounds cs) as [[fromChildren contents] cs1].
    simpl in *. by rewrite Hres.
Qed.

(** ** renderCanvas *)

Section CanvasFacts.

Variable alpha : DisplayObject → Q.

Lemma replayCanvas_app (s : list Mask) (a b : list canvasCall) :
  replayCanvas s (a ++ b)
    = match replayCanvas s a with Some s' => replayCanvas s' b | None => None end.
Proof.
  revert s. induction a as [|c a IH]; intros s; [done|].
  destruct c; simpl; try apply IH. by destruct s.
Qed.

(** X22: The canvas traversal pairs its masks and draws parent first: for every
    tree, replaying its calls against the mask stack never pops an empty
    stack and ends with the stack it started from, and its [_renderCanvas]
    calls are those of the nodes reached, in depth-first order. *)
Theorem renderCanvas_paired_in_order (t : Container) (s : list Mask) :
  replayCanvas s (renderCanvas alpha t) = Some s ∧
  List.filter isCanvasOwn (renderCanvas alpha t)
    = map _renderCanvas (canvasReached alpha t).
Proof.
  revert s. induction t as [d cs IH] using Container_tree_ind. intros s.
  cbn [renderCanvas canvasReached].
  destruct (negb (visible d) || Qle_bool (alpha d) 0 || negb (renderable d)); [done|].
  assert (Hkids :
    (∀ s', replayCanvas s' (canvasChildren (renderCanvas alpha) cs) = Some s') ∧
    List.filter isCanvasOwn (canvasChildren (renderCanvas alpha) cs)
      = map _renderCanvas (flat_map (canvasReached alpha) cs)).
  { induction IH as [|c rest Hc Hrest IHrest]; [done|].
    destruct IHrest as [I1 I2]. cbn [canvasChildren flat_map]. split.
    - intros s'. rewrite replayCanvas_app, (proj1 (Hc s')). apply I1.
    - by rewrite List.filter_app, map_app, (proj2 (Hc [])), I2. }
  destruct Hkids as [K1 K2]. split.
  - destruct (_mask d) as [m|]; cbn [app replayCanvas];
      rewrite replayCanvas_app, K1; done.
  - rewrite !List.filter_app, K2.
    destruct (_mask d) as [m|]; simpl; by rewrite app_nil_r.
Qed.

End CanvasFacts.

End More.

Lemma renderWebGL_stack_discipline_witness :
  replay [] (calls (renderWebGL 0 nested)) = Some [] ∧
  replay [] (calls (renderWebGL 0 masked_and_filtered)) = Some [].
Proof.
  split.
  - apply (renderWebGL_stack_discipline nested). reflexivity.
  - apply (renderWebGL_stack_discipline masked_and_filtered). reflexivity.
Defined.

Lemma renderWebGL_draws_in_order_witness :
  calls (renderWebGL 0 family) = map _renderWebGL [1; 2; 3; 4]%nat.
Proof.
  apply (proj2 (renderWebGL_draws_in_order family 0)). reflexivity.
Defined.

Lemma renderWebGL_pre_order_witness :
  preOrdered (snd (fst (renderWebGL 0 family))) = true.
Proof.
  apply (renderWebGL_pre_order family); reflexivity.
Defined.

Lemma updateTransform_coherent_witness :
  coherent Z.add 100 (snd (updateTransform Z.add 100 0 family)).
Proof.
  apply (updateTransform_coherent Z.add family). reflexivity.
Defined.


Lemma bounds_enclose_children_witness :
  ∃ b, fst (getBounds gallery) = Rect b ∧ encloses b (box 0 0 10 10).
Proof.
  apply (proj1 (bounds_enclose_children (self gallery) (children gallery) eq_refl)
           eq_refl eq_refl)
    with (c := shape 2 true (Some (box 0 0 10 10))).
  - intros c r [<-|[<-|[<-|[]]]] Hr; vm_compute in Hr;
      try discriminate Hr; injection Hr as <-; unfold exact; simpl; lia.
  - left. reflexivity.
  - reflexivity.
  - reflexivity.
Defined.

End GraphMore.

(* ===================================================================== *)
(** * A further property of the vertex stage *)
(* ===================================================================== *)

Module ShaderMore.
Import Shader.

(** X23: A fully opaque vertex keeps its colour: where multiplying by the
    float [one] returns the other factor, a colour attribute whose alpha is
    [one] reaches the fragment stage unchanged. *)
Theorem main_opaque_color_unchanged {float : Type} (one : float)
  (add mul : float → float → float)
  (projectionMatrix : @mat4 float) (v : @attributes float) :
  (∀ c, mul c one = c) →
  a (aColor v) = one →
  vColor (main one add mul projectionMatrix v) = aColor v.
Proof.
  intros Hmul Ha. unfold main, vec4_of, scale, rgb. cbn [vColor v3x v3y v3z].
  rewrite Ha, !Hmul. destruct (aColor v) as [cr cg cb ca]. simpl in *. by subst.
Qed.

Lemma main_opaque_color_unchanged_witness :
  vColor (main 1 Z.add Z.mul
            (mkMat4 (mkVec4 1 0 0 0) (mkVec4 0 1 0 0) (mkVec4 0 0 1 0) (mkVec4 0 0 0 1))
            (mkAttributes (mkVec3 5 6 0) (mkVec2 0 1) (mkVec4 200 100 50 1) 3))
    = mkVec4 200 100 50 1.
Proof.
  apply (main_opaque_color_unchanged 1 Z.add Z.mul).
  - intros c. apply Z.mul_1_r.
  - reflexivity.
Defined.

End ShaderMore.
